(** * html-to-image: the recursive cloning pipeline of [src/cloneNode.ts]

    A shallow embedding of [cloneNode.ts] and the properties of it that
    the specification states, followed by further properties that the
    code shows.

    - The live document and the detached clones live in one store of
      DOM nodes addressed by reference, so that what the code writes to
      and what it leaves alone can be told apart.
    - The asynchronous functions of the source are computations in a
      state-and-rejection monad: [let*] is the [.then] of a promise
      chain, along which a rejection skips every later step.
    - The recursion of [cloneNode] through [cloneChildren] follows the
      document, which the store does not force to be a tree: it is
      bounded by fuel, and a run that exhausts it is a promise that
      never settles.  On a document of bounded depth enough fuel always
      settles.
    - The collaborators of the module ([getBlobFromURL], [createImage],
      [getMimeType], [makeDataUrl], [clonePseudoElements]) are
      parameters, gathered in a record, and so is what the host's CSS
      and HTML parsers make of the texts the module hands them.
    - Numbers are IEEE 754 binary64, as the width patch computes on
      them. *)

From Stdlib Require Import ZArith Ascii String DecimalString Floats.SpecFloat.
From stdpp Require Import base option list gmap strings.

Local Open Scope string_scope.

(** ** Strings as JavaScript uses them *)

Module Js.

(** [s.includes(sub)] *)
Definition includes (s sub : string) : bool :=
  match String.index 0 sub s with
  | Some _ => true
  | None => false
  end.

Definition upper_ascii (c : ascii) : ascii :=
  let n := Ascii.nat_of_ascii c in
  if (97 <=? n)%nat && (n <=? 122)%nat then Ascii.ascii_of_nat (n - 32) else c.

(** [s.toUpperCase()], on the ASCII letters; other bytes are kept. *)
Fixpoint toUpperCase (s : string) : string :=
  match s with
  | EmptyString => EmptyString
  | String c s' => String (upper_ascii c) (toUpperCase s')
  end.

(** The one-character string made of a double quote. *)
Definition dquote : string := String "034"%char EmptyString.

(** Truthiness of a string: only the empty string is falsy. *)
Definition truthy (s : string) : bool := negb (String.eqb s "").

(** [a || b] where [a] is a string or [undefined]. *)
Definition or_else (a : option string) (b : string) : string :=
  match a with
  | Some s => if truthy s then s else b
  | None => b
  end.

(** A value that is a string or [null], inside a template literal. *)
Definition template (a : option string) : string :=
  match a with
  | Some s => s
  | None => "null"
  end.

End Js.

(** ** Numbers: IEEE 754 binary64, as [parseFloat], [%], [+] and
    [Math.ceil] compute on them *)

Module Number.

Definition prec : Z := 53.
Definition emax : Z := 1024.

Definition t : Type := spec_float.

(** The binary64 value nearest to [m * 10^k] (one rounding, ties to even). *)
Definition ofScientific (neg : bool) (m : N) (k : Z) : t :=
  match m with
  | N0 => S754_zero neg
  | Npos p =>
      if (0 <=? k)%Z then
        binary_normalize prec emax
          ((if neg then Z.neg p else Z.pos p) * 10 ^ k)%Z 0 neg
      else
        SFdiv prec emax (S754_finite neg p 0)
              (S754_finite false (Z.to_pos (10 ^ (- k))) 0)
  end.

(** The binary64 value nearest to [m / 10^k]. *)
Definition ofDecimal (neg : bool) (m : N) (k : nat) : t :=
  ofScientific neg m (- Z.of_nat k).

Definition ofZ (z : Z) : t := binary_normalize prec emax z 0 false.

Definition digit_of (c : ascii) : option N :=
  let n := Ascii.N_of_ascii c in
  if (48 <=? n)%N && (n <=? 57)%N then Some (n - 48)%N else None.

(** Reads the leading decimal digits of [s] onto [acc]; returns the
    accumulated value, how many digits were read, and the rest. *)
Fixpoint digits (s : string) (acc : N) (n : nat) : N * nat * string :=
  match s with
  | String c s' =>
      match digit_of c with
      | Some d => digits s' (10 * acc + d)%N (S n)
      | None => (acc, n, s)
      end
  | EmptyString => (acc, n, s)
  end.

(** White space and line terminators of one byte: TAB, LF, VT, FF, CR
    and SP. *)
Definition is_space (c : ascii) : bool :=
  let n := Ascii.nat_of_ascii c in
  ((9 <=? n)%nat && (n <=? 13)%nat) || (n =? 32)%nat.

(** U+00A0, in UTF-8. *)
Definition is_space2 (c1 c2 : ascii) : bool :=
  (Ascii.nat_of_ascii c1 =? 194)%nat && (Ascii.nat_of_ascii c2 =? 160)%nat.

(** U+1680, U+2000 to U+200A, U+2028, U+2029, U+202F, U+205F, U+3000
    and U+FEFF, in UTF-8. *)
Definition is_space3 (c1 c2 c3 : ascii) : bool :=
  let a := Ascii.nat_of_ascii c1 in
  let b := Ascii.nat_of_ascii c2 in
  let c := Ascii.nat_of_ascii c3 in
  ((a =? 225)%nat && (b =? 154)%nat && (c =? 128)%nat) ||
  ((a =? 226)%nat && (b =? 128)%nat &&
   (((128 <=? c)%nat && (c <=? 138)%nat) || (c =? 168)%nat || (c =? 169)%nat ||
    (c =? 175)%nat)) ||
  ((a =? 226)%nat && (b =? 129)%nat && (c =? 159)%nat) ||
  ((a =? 227)%nat && (b =? 128)%nat && (c =? 128)%nat) ||
  ((a =? 239)%nat && (b =? 187)%nat && (c =? 191)%nat).

(** Drops the leading white space and line terminators, read as UTF-8. *)
Fixpoint trimStart (s : string) : string :=
  match s with
  | String c1 s1 =>
      if is_space c1 then trimStart s1
      else
        match s1 with
        | String c2 s2 =>
            if is_space2 c1 c2 then trimStart s2
            else
              match s2 with
              | String c3 s3 => if is_space3 c1 c2 c3 then trimStart s3 else s
              | EmptyString => s
              end
        | EmptyString => s
        end
  | EmptyString => s
  end.

(** The value of an exponent part at the head of [s], [0] when there
    is none: [e] or [E], an optional sign, and at least one digit. *)
Definition exponent (s : string) : Z :=
  match s with
  | String c r =>
      if Ascii.eqb c "e" || Ascii.eqb c "E" then
        let '(neg, r') :=
          match r with
          | String "-" r' => (true, r')
          | String "+" r' => (false, r')
          | _ => (false, r)
          end in
        let '(e, n, _) := digits r' 0%N 0%nat in
        if (n =? 0)%nat then 0%Z
        else if neg then (- Z.of_N e)%Z else Z.of_N e
      else 0%Z
  | EmptyString => 0%Z
  end.

(** [parseFloat(s)]: the longest prefix of the trimmed string that is
    a decimal literal (an optional sign, then [Infinity], or decimal
    digits with an optional point and an optional exponent part, with
    at least one digit before the exponent), rounded to binary64;
    [NaN] when there is none. *)
Definition parseFloat (s : string) : t :=
  let s0 := trimStart s in
  let '(neg, s1) :=
    match s0 with
    | String "-" r => (true, r)
    | String "+" r => (false, r)
    | _ => (false, s0)
    end in
  if String.prefix "Infinity" s1 then S754_infinity neg
  else
    let '(i, ni, s2) := digits s1 0%N 0%nat in
    let '(m, nf, s3) :=
      match s2 with
      | String "." r => digits r i 0%nat
      | _ => (i, 0%nat, s2)
      end in
    if (ni + nf =? 0)%nat then S754_nan
    else ofScientific neg m (exponent s3 - Z.of_nat nf).

(** [x % 1]: the exact remainder, with the sign of [x]. *)
Definition mod1 (x : t) : t :=
  match x with
  | S754_zero s => S754_zero s
  | S754_finite s m e =>
      if (0 <=? e)%Z then S754_zero s
      else
        let r := (Z.pos m mod 2 ^ (- e))%Z in
        binary_normalize prec emax (if s then - r else r)%Z e s
  | _ => S754_nan
  end.

(** [x > y]; false when either side is [NaN]. *)
Definition gtb (x y : t) : bool := SFltb y x.

Definition add (x y : t) : t := SFadd prec emax x y.

(** An integral number, as [Math.ceil] returns it. *)
Inductive Integral : Type :=
| NaN
| Infinity (neg : bool)
| Int (z : Z).

(** [Math.ceil(x)] *)
Definition ceil (x : t) : Integral :=
  match x with
  | S754_zero _ => Int 0
  | S754_finite s m e =>
      if (0 <=? e)%Z then Int ((if s then -1 else 1) * Z.pos m * 2 ^ e)%Z
      else
        let d := (2 ^ (- e))%Z in
        Int (if s then - (Z.pos m / d) else (Z.pos m + d - 1) / d)%Z
  | S754_infinity s => Infinity s
  | S754_nan => NaN
  end.

Definition decimal (z : Z) : string :=
  match z with
  | Z0 => "0"
  | Zpos p => NilZero.string_of_uint (Pos.to_uint p)
  | Zneg p => "-" ++ NilZero.string_of_uint (Pos.to_uint p)
  end.

(** Whether the integer [v] reads back as the number nearest to [z]. *)
Definition readsAs (v z : Z) : bool := SFeqb (ofZ v) (ofZ z).

(** The integer with the fewest significant digits that reads back as
    the number nearest to [z > 0], the nearest to [z] among those, and
    the one with the even last digit when two are as near; [k] counts
    the significant digits tried, [d] the digits of [z]. *)
Fixpoint shortest (z : Z) (d k fuel : nat) : Z :=
  match fuel with
  | O => z
  | S fuel' =>
      let p := (10 ^ Z.of_nat (d - k))%Z in
      let lo := (z / p * p)%Z in
      let hi := (lo + p)%Z in
      match readsAs lo z, readsAs hi z with
      | true, true =>
          if (z - lo <? hi - z)%Z then lo
          else if (hi - z <? z - lo)%Z then hi
          else if Z.even (z / p) then lo else hi
      | true, false => lo
      | false, true => hi
      | false, false => shortest z d (S k) fuel'
      end
  end.

Fixpoint dropZeros (rev : list ascii) : list ascii :=
  match rev with
  | "0"%char :: rest => dropZeros rest
  | _ => rev
  end.

(** The digits without the zeros they end in. *)
Definition significant (ds : string) : string :=
  string_of_list_ascii (List.rev (dropZeros (List.rev (list_ascii_of_string ds)))).

(** The text of the number nearest to [z > 0]: its shortest reading,
    written out up to 21 digits and in exponent notation beyond. *)
Definition positive (z : Z) : string :=
  let d := String.length (decimal z) in
  let ds := decimal (shortest z d 1 d) in
  let n := String.length ds in
  if (n <=? 21)%nat then ds
  else
    match significant ds with
    | String c EmptyString => String c ("e+" ++ decimal (Z.of_nat (n - 1)))
    | String c rest => String c ("." ++ rest ++ "e+" ++ decimal (Z.of_nat (n - 1)))
    | EmptyString => ds
    end.

(** The text of an integral number inside a template literal. *)
Definition toString (n : Integral) : string :=
  match n with
  | NaN => "NaN"
  | Infinity false => "Infinity"
  | Infinity true => "-Infinity"
  | Int Z0 => "0"
  | Int (Zpos p) => positive (Zpos p)
  | Int (Zneg p) => "-" ++ positive (Zpos p)
  end.

End Number.

(** ** The document store *)

(** A reference to a DOM node. *)
Definition NodeId : Type := nat.

(** The interfaces the source tests with [instanceof]. *)
Inductive Interface : Type :=
| HTMLCanvasElement
| HTMLVideoElement
| HTMLTextAreaElement
| HTMLInputElement
| HTMLImageElement
| HTMLElement      (* any other HTML element *)
| Element          (* an element outside the HTML namespace *)
| ShadowRoot
| Text
| Comment.

#[global] Instance Interface_eq_dec : EqDecision Interface.
Proof. solve_decision. Defined.

Definition is_html (i : Interface) : bool :=
  match i with
  | HTMLCanvasElement | HTMLVideoElement | HTMLTextAreaElement
  | HTMLInputElement | HTMLImageElement | HTMLElement => true
  | _ => false
  end.

(** [x instanceof cls], for [x] whose most specific interface is [i]. *)
Definition instanceof (i cls : Interface) : bool :=
  match cls with
  | Element => is_html i || bool_decide (i = Element)
  | HTMLElement => is_html i
  | _ => bool_decide (i = cls)
  end.

(** What [window.getComputedStyle(node)] answers: the serialised text
    (empty on hosts that do not provide it) and the declarations as
    name, value and priority. *)
Record CSSStyleDeclaration : Type := {
  cssText : string;
  declarations : list (string * string * string)
}.

Definition getPropertyValue (s : CSSStyleDeclaration) (name : string) : string :=
  match List.find (fun d => String.eqb d.1.1 name) (declarations s) with
  | Some d => d.1.2
  | None => ""
  end.

Definition getPropertyPriority (s : CSSStyleDeclaration) (name : string) : string :=
  match List.find (fun d => String.eqb d.1.1 name) (declarations s) with
  | Some d => d.2
  | None => ""
  end.

Record DomNode : Type := {
  interface : Interface;
  tagName : option string;                (* [undefined] on text and comments *)
  attributes : list (string * string);
  hasStyle : bool;                        (* whether [node.style] is defined *)
  childNodes : list NodeId;
  parentNode : option NodeId;
  shadowRoot : option NodeId;
  assignedNodes : option (list NodeId);   (* [None]: the method is absent *)
  poster : string;
  value : string;
  toDataURL : string;
  src : string;
  nodeValue : string;                     (* the data of a text or a comment *)
  computedStyle : CSSStyleDeclaration
}.

Definition noStyle : CSSStyleDeclaration := {| cssText := ""; declarations := [] |}.

#[global] Instance DomNode_inhabited : Inhabited DomNode :=
  populate {| interface := Comment; tagName := None; attributes := [];
              hasStyle := false; childNodes := []; parentNode := None;
              shadowRoot := None; assignedNodes := None; poster := "";
              value := ""; toDataURL := ""; src := ""; nodeValue := "";
              computedStyle := noStyle |}.

Definition Reason : Type := string.

(** What the run leaves behind for an observer: the nodes [cloneNode]
    was entered on, and the settled collaborator calls. *)
Inductive Event : Type :=
| Visit (node : NodeId)
| GetBlob (url : string) (rejected : option Reason)
| CreateImage (url : string) (rejected : option Reason).

Record World : Type := {
  heap : gmap NodeId DomNode;
  next : NodeId;                 (* the next fresh reference *)
  trace : list Event
}.

Definition getNode (w : World) (id : NodeId) : DomNode := default inhabitant (heap w !! id).

(** ** Promises *)

Inductive Outcome (A : Type) : Type :=
| Resolved (a : A)
| Rejected (e : Reason)
| Pending.                       (* never settles: the model ran out of fuel *)
Arguments Resolved {A} a.
Arguments Rejected {A} e.
Arguments Pending {A}.

Definition M (A : Type) : Type := World -> Outcome A * World.

Definition ret {A} (a : A) : M A := fun w => (Resolved a, w).

Definition reject {A} (e : Reason) : M A := fun w => (Rejected e, w).

Definition pending {A} : M A := fun w => (Pending, w).

(** [m.then(k)]: a rejection skips [k] and is passed on. *)
Definition bind {A B} (m : M A) (k : A -> M B) : M B :=
  fun w =>
    match m w with
    | (Resolved a, w') => k a w'
    | (Rejected e, w') => (Rejected e, w')
    | (Pending, w') => (Pending, w')
    end.

Declare Scope promise_scope.
Delimit Scope promise_scope with promise.
Notation "'let*' x := m 'in' k" := (bind m (fun x => k))
  (at level 10, x name, m at level 100, k at level 200) : promise_scope.
Notation "m1 ;;; m2" := (bind m1 (fun _ => m2))
  (at level 100, m2 at level 200, right associativity) : promise_scope.
Local Open Scope promise_scope.

(** The document as it is now. *)
Definition current : M World := fun w => (Resolved w, w).

Definition modify (f : World -> World) : M unit := fun w => (Resolved tt, f w).

(** The world after one more event. *)
Definition logged (e : Event) (w : World) : World :=
  {| heap := heap w; next := next w; trace := trace w ++ [e] |}.

Definition log (e : Event) : M unit := modify (logged e).

(** [l.forEach(f)] *)
Fixpoint forEach {A} (l : list A) (f : A -> M unit) : M unit :=
  match l with
  | [] => ret tt
  | x :: l' => f x ;;; forEach l' f
  end.

(** Reads the node behind a reference. *)
Definition read (id : NodeId) : M DomNode := fun w => (Resolved (getNode w id), w).

(** ** Host operations on nodes *)

(** The store with [nd] behind the reference [id]. *)
Definition write (id : NodeId) (nd : DomNode) (w : World) : World :=
  {| heap := <[id := nd]> (heap w); next := next w; trace := trace w |}.

(** A mutation of the node behind a reference. *)
Definition update (id : NodeId) (f : DomNode -> DomNode) : M unit :=
  modify (fun w => write id (f (getNode w id)) w).

(** A new node enters the store under a fresh reference. *)
Definition alloc (nd : DomNode) : M NodeId :=
  fun w => (Resolved (next w),
            {| heap := <[next w := nd]> (heap w); next := S (next w); trace := trace w |}).

Definition with_childNodes (l : list NodeId) (nd : DomNode) : DomNode :=
  {| interface := interface nd; tagName := tagName nd; attributes := attributes nd;
     hasStyle := hasStyle nd; childNodes := l; parentNode := parentNode nd;
     shadowRoot := shadowRoot nd; assignedNodes := assignedNodes nd;
     poster := poster nd; value := value nd; toDataURL := toDataURL nd;
     src := src nd; nodeValue := nodeValue nd; computedStyle := computedStyle nd |}.

Definition with_parentNode (p : option NodeId) (nd : DomNode) : DomNode :=
  {| interface := interface nd; tagName := tagName nd; attributes := attributes nd;
     hasStyle := hasStyle nd; childNodes := childNodes nd; parentNode := p;
     shadowRoot := shadowRoot nd; assignedNodes := assignedNodes nd;
     poster := poster nd; value := value nd; toDataURL := toDataURL nd;
     src := src nd; nodeValue := nodeValue nd; computedStyle := computedStyle nd |}.

Definition with_attributes (l : list (string * string)) (nd : DomNode) : DomNode :=
  {| interface := interface nd; tagName := tagName nd; attributes := l;
     hasStyle := hasStyle nd; childNodes := childNodes nd; parentNode := parentNode nd;
     shadowRoot := shadowRoot nd; assignedNodes := assignedNodes nd;
     poster := poster nd; value := value nd; toDataURL := toDataURL nd;
     src := src nd; nodeValue := nodeValue nd; computedStyle := computedStyle nd |}.

(** [node.cloneNode(false)]: a detached copy of the node itself, with
    its attributes and without its children or shadow tree; being
    detached, it has no computed style. *)
Definition shallowClone (node : NodeId) : M NodeId :=
  let* nd := read node in
  alloc {| interface := interface nd; tagName := tagName nd; attributes := attributes nd;
           hasStyle := hasStyle nd; childNodes := []; parentNode := None;
           shadowRoot := None;
           assignedNodes := match assignedNodes nd with Some _ => Some [] | None => None end;
           poster := poster nd; value := value nd; toDataURL := toDataURL nd;
           src := src nd; nodeValue := nodeValue nd; computedStyle := noStyle |}.

Definition remove_child (child : NodeId) (nd : DomNode) : DomNode :=
  with_childNodes (List.filter (fun c => negb (c =? child)%nat) (childNodes nd)) nd.

(** [parent.appendChild(child)]: the child leaves the parent it had,
    if any, and becomes the last child of [parent]. *)
Definition appendChild (parent child : NodeId) : M unit :=
  let* c := read child in
  match parentNode c with
  | Some old => update old (remove_child child)
  | None => ret tt
  end ;;;
  update child (with_parentNode (Some parent)) ;;;
  update parent (fun nd => with_childNodes (childNodes nd ++ [child]) nd).

Fixpoint assoc_get (name : string) (l : list (string * string)) : option string :=
  match l with
  | [] => None
  | (k, v) :: l' => if String.eqb k name then Some v else assoc_get name l'
  end.

Fixpoint assoc_set (name v : string) (l : list (string * string)) : list (string * string) :=
  match l with
  | [] => [(name, v)]
  | (k, v0) :: l' =>
      if String.eqb k name then (k, v) :: l' else (k, v0) :: assoc_set name v l'
  end.

(** [node.getAttribute(name)]; [None] is [null]. *)
Definition getAttribute (node : NodeId) (name : string) : M (option string) :=
  let* nd := read node in
  ret (assoc_get name (attributes nd)).

(** [node.setAttribute(name, v)] *)
Definition setAttribute (node : NodeId) (name v : string) : M unit :=
  update node (fun nd => with_attributes (assoc_set name v (attributes nd)) nd).

(** [node.style.cssText = text]: the host parses the text and leaves
    its own serialisation of the declarations, [serialise text], as
    the [style] attribute. *)
Definition style_set_cssText (serialise : string -> string)
    (node : NodeId) (text : string) : M unit :=
  setAttribute node "style" (serialise text).

(** [node.style.setProperty(name, v, priority)]: the host works the
    declaration into the inline style and serialises the result as the
    [style] attribute; [declare] gives that text from the attribute as
    it was, or [None] when the call changes nothing. *)
Definition style_setProperty
    (declare : option string -> string -> string -> string -> option string)
    (node : NodeId) (name v priority : string) : M unit :=
  let* old := getAttribute node "style" in
  match declare old name v priority with
  | Some text => setAttribute node "style" text
  | None => ret tt
  end.

(** The text node the parser makes of character data. *)
Definition textNode (parent : NodeId) (text : string) : DomNode :=
  {| interface := Text; tagName := None; attributes := []; hasStyle := false;
     childNodes := []; parentNode := Some parent; shadowRoot := None;
     assignedNodes := None; poster := ""; value := ""; toDataURL := "";
     src := ""; nodeValue := text; computedStyle := noStyle |}.

(** [node.innerHTML = s] on a textarea, the one element the source
    assigns it on.  The children the node had are removed from it and
    the host parses [s] as the content of a textarea, which is text
    with character references: [parse s] is the character data it
    yields, and when there is any, a new text node that holds it
    becomes the only child of the node. *)
Definition set_innerHTML (parse : string -> string) (node : NodeId) (s : string) : M unit :=
  let* nd := read node in
  forEach (childNodes nd) (fun c => update c (with_parentNode None)) ;;;
  if Js.truthy (parse s) then
    let* text := alloc (textNode node (parse s)) in
    update node (with_childNodes [text])
  else update node (with_childNodes []).

(** ** Options and collaborators *)

(** Modelled from the spec: [Options], declared in [options.ts], holds
    an optional filter predicate on source nodes and passthrough
    settings that only the collaborators read.  The filter is given the
    document and the node it is asked about. *)
Record Options : Type := {
  filter : option (gmap NodeId DomNode -> NodeId -> bool);
  passthrough : list (string * string)
}.

(** What [getBlobFromURL] resolves to. *)
Record Blob : Type := {
  blob : string;
  contentType : string
}.

(** Modelled from the spec: the collaborators that [cloneNode.ts]
    imports from [getBlobFromURL.ts], [util.ts] and
    [clonePseudoElements.ts].  [getBlobFromURL] and [createImage]
    resolve or reject, as the network and the decoder decide;
    [getMimeType] and [makeDataUrl] are synchronous helpers;
    [clonePseudoElements] works on the clone in place.  The record
    also holds what the host's CSS and HTML parsers compute where the
    module assigns to [style.cssText], calls [style.setProperty] and
    assigns to [innerHTML]: [styleText], [styleWith] and [parseText],
    as [style_set_cssText], [style_setProperty] and [set_innerHTML]
    use them. *)
Record Host : Type := {
  network : string -> Options -> Reason + Blob;
  decoder : string -> option Reason;
  getMimeType : string -> option string;
  makeDataUrl : string -> string -> string;
  clonePseudoElements : NodeId -> NodeId -> World -> World;
  (* the host's own part in what the module calls *)
  styleText : string -> string;
  styleWith : option string -> string -> string -> string -> option string;
  parseText : string -> string
}.

Section Cloning.

Variable host : Host.

(** Modelled from the spec: [getBlobFromURL(url, options)] resolves
    to the blob and its content type, or rejects. *)
Definition getBlobFromURL (url : string) (options : Options) : M Blob :=
  match network host url options with
  | inl e => log (GetBlob url (Some e)) ;;; reject e
  | inr data => log (GetBlob url None) ;;; ret data
  end.

(** Modelled from the spec: [createImage(url)] of [util.ts], an
    asynchronous decode that resolves to a new image-kind node whose
    source is [url], or rejects. *)
Definition createImage (url : string) : M NodeId :=
  match decoder host url with
  | Some e => log (CreateImage url (Some e)) ;;; reject e
  | None =>
      log (CreateImage url None) ;;;
      alloc {| interface := HTMLImageElement; tagName := Some "IMG";
               attributes := [("src", url)]; hasStyle := true;
               childNodes := []; parentNode := None; shadowRoot := None;
               assignedNodes := None; poster := ""; value := "";
               toDataURL := ""; src := url; nodeValue := "";
               computedStyle := noStyle |}
  end.

(** lines 7-14 *)
Definition cloneCanvasElement (node : NodeId) : M NodeId :=
  let* nd := read node in
  let dataURL := toDataURL nd in
  if String.eqb dataURL "data:," then shallowClone node
  else createImage dataURL.

(** lines 16-23 *)
Definition cloneVideoElement (node : NodeId) (options : Options) : M NodeId :=
  let* nd := read node in
  let* url := ret (poster nd) in
  let* data := getBlobFromURL url options in
  let* nd := read node in
  let* dataURL :=
    ret (makeDataUrl host (blob data)
           (Js.or_else (getMimeType host (poster nd)) (contentType data))) in
  createImage dataURL.

(** lines 25-38 *)
Definition cloneSingleNode (node : NodeId) (options : Options) : M NodeId :=
  let* nd := read node in
  if instanceof (interface nd) HTMLCanvasElement then cloneCanvasElement node
  else if instanceof (interface nd) HTMLVideoElement && Js.truthy (poster nd)
  then cloneVideoElement node options
  else shallowClone node.

(** lines 40-41 *)
Definition isSlotElement (nd : DomNode) : bool :=
  match tagName nd with
  | Some t => String.eqb (Js.toUpperCase t) "SLOT"
  | None => false
  end.

(** lines 48-51: the list [cloneChildren] walks. *)
Definition effectiveChildren (w : World) (nativeNode : NodeId) : list NodeId :=
  let nd := getNode w nativeNode in
  match isSlotElement nd, assignedNodes nd with
  | true, Some assigned => assigned
  | _, _ =>
      match shadowRoot nd with
      | Some sr => childNodes (getNode w sr)
      | None => childNodes nd
      end
  end.

(** lines 43-72.  The forward reference to [cloneNode] is the first
    argument; [List.fold_left] is the [reduce] over the children, each
    step chained on the promise of the step before. *)
Definition cloneChildren
    (cloneNode : NodeId -> Options -> option bool -> M (option NodeId))
    (nativeNode clonedNode : NodeId) (options : Options) : M NodeId :=
  let* w := current in
  let children := effectiveChildren w nativeNode in
  let* nd := read nativeNode in
  if (length children =? 0)%nat || instanceof (interface nd) HTMLVideoElement
  then ret clonedNode
  else
    List.fold_left
      (fun deferred child =>
         deferred ;;;
         let* clonedChild := cloneNode child options None in
         match clonedChild with
         | Some c => appendChild clonedNode c
         | None => ret tt
         end)
      children (ret tt) ;;;
    ret clonedNode.

(** lines 95-105 *)
Definition patchBackgroundClip (source : CSSStyleDeclaration) (clonedNode : NodeId) : M unit :=
  let webkitBackgroundClip := getPropertyValue source "-webkit-background-clip" in
  if negb (String.eqb webkitBackgroundClip "border-box") then
    let* old := getAttribute clonedNode "style" in
    setAttribute clonedNode "style"
      (Js.template old ++ ";-webkit-background-clip:" ++ webkitBackgroundClip ++ ";")
  else ret tt.

(** lines 107-115 *)
Definition patchFontFeatureSettings (source : CSSStyleDeclaration) (clonedNode : NodeId) : M unit :=
  let fontFeatureSettings := getPropertyValue source "font-feature-settings" in
  if negb (String.eqb fontFeatureSettings (Js.dquote ++ "kern" ++ Js.dquote)) then
    let* old := getAttribute clonedNode "style" in
    setAttribute clonedNode "style"
      (Js.template old ++ ";font-feature-settings:" ++ fontFeatureSettings ++ ";")
  else ret tt.

(** lines 117-133: the text wrap fix, on [<p>] only. *)
Definition fixTextWrap (nativeNode clonedNode : NodeId) : M unit :=
  let* native := read nativeNode in
  if bool_decide (tagName native = Some "P") then
    let width := getPropertyValue (computedStyle native) "width" in
    if Js.includes width "." then
      let floatWidth := Number.parseFloat width in
      let floatWidth :=
        if Number.gtb (Number.mod1 floatWidth) (Number.ofDecimal false 9 1)
        then Number.add floatWidth (Number.ofZ 1)
        else floatWidth in
      let newWidth := Number.ceil floatWidth in
      let* old := getAttribute clonedNode "style" in
      setAttribute clonedNode "style"
        (Js.template old ++ ";width:" ++ Number.toString newWidth ++ "px;")
    else ret tt
  else ret tt.

(** lines 135-142 *)
Definition patchAlignItems (source : CSSStyleDeclaration) (clonedNode : NodeId) : M unit :=
  let alignItems := getPropertyValue source "align-items" in
  if negb (String.eqb alignItems "normal") then
    let* old := getAttribute clonedNode "style" in
    setAttribute clonedNode "style"
      (Js.template old ++ ";align-items:" ++ alignItems ++ ";")
  else ret tt.

(** lines 144-151 *)
Definition patchPerspective (source : CSSStyleDeclaration) (clonedNode : NodeId) : M unit :=
  let perspective := getPropertyValue source "perspective" in
  if negb (String.eqb perspective "none") then
    let* old := getAttribute clonedNode "style" in
    setAttribute clonedNode "style"
      (Js.template old ++ ";perspective:" ++ perspective ++ ";")
  else ret tt.

(** lines 74-152 *)
Definition cloneCSSStyle (nativeNode clonedNode : NodeId) : M unit :=
  let* native := read nativeNode in
  let source := computedStyle native in
  let* cloned := read clonedNode in
  if negb (hasStyle cloned) then ret tt
  else
    (if Js.truthy (cssText source)
     then style_set_cssText (styleText host) clonedNode (cssText source)
     else
       forEach (List.map (fun d => d.1.1) (declarations source))
         (fun name =>
            style_setProperty (styleWith host) clonedNode name
              (getPropertyValue source name) (getPropertyPriority source name))) ;;;
    patchBackgroundClip source clonedNode ;;;
    patchFontFeatureSettings source clonedNode ;;;
    fixTextWrap nativeNode clonedNode ;;;
    patchAlignItems source clonedNode ;;;
    patchPerspective source clonedNode.

(** lines 154-162 *)
Definition cloneInputValue (nativeNode clonedNode : NodeId) : M unit :=
  let* native := read nativeNode in
  (if instanceof (interface native) HTMLTextAreaElement
   then set_innerHTML (parseText host) clonedNode (value native)
   else ret tt) ;;;
  let* native := read nativeNode in
  if instanceof (interface native) HTMLInputElement
  then setAttribute clonedNode "value" (value native)
  else ret tt.

(** lines 164-177 *)
Definition decorate (nativeNode clonedNode : NodeId) : M NodeId :=
  let* cloned := read clonedNode in
  if negb (instanceof (interface cloned) Element) then ret clonedNode
  else
    ret tt ;;;
    cloneCSSStyle nativeNode clonedNode ;;;
    modify (clonePseudoElements host nativeNode clonedNode) ;;;
    cloneInputValue nativeNode clonedNode ;;;
    ret clonedNode.

(** [!isRoot] for an argument that may have been left out. *)
Definition not_root (isRoot : option bool) : bool :=
  match isRoot with
  | Some b => negb b
  | None => true
  end.

(** lines 179-192.  [fuel] bounds the depth of the recursion; a run
    that exhausts it is a promise that never settles. *)
Fixpoint cloneNode (fuel : nat) (node : NodeId) (options : Options)
    (isRoot : option bool) : M (option NodeId) :=
  match fuel with
  | O => pending
  | S fuel' =>
      log (Visit node) ;;;
      let* w := current in
      if not_root isRoot &&
         match filter options with
         | Some f => negb (f (heap w) node)
         | None => false
         end
      then ret None
      else
        let* clonedNode := cloneSingleNode node options in
        let* clonedNode := cloneChildren (cloneNode fuel') node clonedNode options in
        let* clonedNode := decorate node clonedNode in
        ret (Some clonedNode)
  end.

End Cloning.

(** ** Notions the statements use *)

(** The child loop of [cloneChildren] unrolled: what the chain built
    by [reduce] runs once the promise it starts from has resolved. *)
Fixpoint cloneEach
    (rec : NodeId -> Options -> option bool -> M (option NodeId))
    (clonedNode : NodeId) (options : Options) (children : list NodeId) : M unit :=
  match children with
  | [] => ret tt
  | child :: rest =>
      let* clonedChild := rec child options None in
      match clonedChild with
      | Some c => appendChild clonedNode c
      | None => ret tt
      end ;;;
      cloneEach rec clonedNode options rest
  end.

(** Whether [cloneChildren] returns at once (line 53). *)
Definition skipsChildren (w : World) (nativeNode : NodeId) : bool :=
  (length (effectiveChildren w nativeNode) =? 0)%nat ||
  instanceof (interface (getNode w nativeNode)) HTMLVideoElement.

(** The store below [k] is as it was. *)
Definition agree_below (k : NodeId) (w w' : World) : Prop :=
  forall id, id < k -> heap w' !! id = heap w !! id.

(** A clone under construction: allocated at or above [k], detached,
    and with children that are clones themselves. *)
Definition ready (k c : NodeId) (w : World) : Prop :=
  k <= c /\ c < next w /\ parentNode (getNode w c) = None /\
  Forall (fun ch => k <= ch) (childNodes (getNode w c)).

(** The steps of the child loop of [cloneChildren], one after the
    other: a child's whole recursive clone runs from the world its
    predecessor's append left, and its own append comes before the
    next sibling starts. *)
Inductive seq_clone
    (rec : NodeId -> Options -> option bool -> M (option NodeId))
    (clonedNode : NodeId) (options : Options) :
    list NodeId -> World -> list (option NodeId) -> World -> Prop :=
| seq_done w : seq_clone rec clonedNode options [] w [] w
| seq_step child rest w r w1 w2 rs w3 :
    rec child options None w = (Resolved r, w1) ->
    match r with
    | Some c => appendChild clonedNode c
    | None => ret tt
    end w1 = (Resolved tt, w2) ->
    seq_clone rec clonedNode options rest w2 rs w3 ->
    seq_clone rec clonedNode options (child :: rest) w (r :: rs) w3.

(** The contract of [clonePseudoElements].
    Modelled from the spec: it mutates the clone in place to add
    pseudo-content representations.  So it works on the clone it is
    given and on nodes it creates, leaves the clone where it is, gives
    it no child that existed before, and calls no fetch or decode of
    its own. *)
Record pseudo_contract (f : NodeId -> NodeId -> World -> World) : Prop := {
  pseudo_trace : forall n c w, trace (f n c w) = trace w;
  pseudo_next : forall n c w, next w <= next (f n c w);
  pseudo_frame : forall n c w id,
      id < next w -> id <> c -> heap (f n c w) !! id = heap w !! id;
  pseudo_parent : forall n c w,
      c < next w ->
      parentNode (getNode (f n c w) c) = parentNode (getNode w c);
  pseudo_children : forall n c w ch,
      c < next w ->
      ch ∈ childNodes (getNode (f n c w) c) ->
      ch ∈ childNodes (getNode w c) \/ next w <= ch
}.

(** The inline style of a node, as [getAttribute('style')] reads it. *)
Definition inline_style (w : World) (node : NodeId) : option string :=
  assoc_get "style" (attributes (getNode w node)).

(** [cloneChildren] resolves to the clone it was given and the clone
    is as it was. *)
Definition returns_unchanged
    (rec : NodeId -> Options -> option bool -> M (option NodeId))
    (nativeNode clonedNode : NodeId) (options : Options) (w : World) : Prop :=
  exists w', cloneChildren rec nativeNode clonedNode options w = (Resolved clonedNode, w') /\
    getNode w' clonedNode = getNode w clonedNode.

(** The rejections among the settled collaborator calls. *)
Definition rejection (e : Event) : option Reason :=
  match e with
  | Visit _ => None
  | GetBlob _ r => r
  | CreateImage _ r => r
  end.

Definition rejections (evs : list Event) : list Reason := omap rejection evs.

(** The nodes [cloneChildren] would walk from [node] in the world [w]
    all lie below the reference [k] and nest at most [d] deep. *)
Fixpoint within_depth (w : World) (k : NodeId) (d : nat) (node : NodeId) : bool :=
  match d with
  | O => false
  | S d' =>
      bool_decide (node < k) &&
      match shadowRoot (getNode w node) with
      | Some sr => bool_decide (sr < k)
      | None => true
      end &&
      forallb (within_depth w k d') (effectiveChildren w node)
  end.

(** A step that only rewrites the attributes of the node [c]. *)
Definition attrs_step (c : NodeId) (w w' : World) : Prop :=
  next w' = next w /\ trace w' = trace w /\
  (forall id, id <> c -> heap w' !! id = heap w !! id) /\
  exists l, getNode w' c = with_attributes l (getNode w c).

(** A computation that resolves and only rewrites the attributes of [c]. *)
Definition attrs_only {A} (c : NodeId) (m : M A) : Prop :=
  forall w, exists a w', m w = (Resolved a, w') /\ attrs_step c w w'.

(** The world after [c.appendChild(c')], for a detached [c']. *)
Definition appended (c c' : NodeId) (w : World) : World :=
  let w1 := write c' (with_parentNode (Some c) (getNode w c')) w in
  write c (with_childNodes (childNodes (getNode w1 c) ++ [c'])%list (getNode w1 c)) w1.

(** The world after [c.innerHTML = s], once the children of [c] are
    detached, for the character data [text] the parser makes of [s]. *)
Definition reparsed (c : NodeId) (text : string) (w : World) : World :=
  if Js.truthy text then
    let w1 :=
      {| heap := <[next w := textNode c text]> (heap w);
         next := S (next w); trace := trace w |} in
    write c (with_childNodes [next w] (getNode w1 c)) w1
  else write c (with_childNodes [] (getNode w c)) w.

(** Detaches the nodes of [l] from their parents. *)
Definition detach_all (l : list NodeId) : M unit :=
  forEach l (fun c => update c (with_parentNode None)).

(** The rejection a settled promise carries, if any. *)
Definition settled_rejections {A} (out : Outcome A) : list Reason :=
  match out with
  | Rejected e => [e]
  | _ => []
  end.

(** A computation whose rejection, if any, is the one rejection among
    the collaborator calls it has logged. *)
Definition traced {A} (m : M A) : Prop :=
  forall w out w', m w = (out, w') ->
    exists evs, trace w' = (trace w ++ evs)%list /\
      rejections evs = settled_rejections out.

(** What a call of [cloneNode] leaves: the store it found is intact,
    and the clone it resolves to is new and detached. *)
Definition node_post (w : World) (out : Outcome (option NodeId)) (w' : World) : Prop :=
  next w <= next w' /\ agree_below (next w) w w' /\
  forall c, out = Resolved (Some c) ->
    next w <= c /\ c < next w' /\ parentNode (getNode w' c) = None.

(** The nodes visited among the events. *)
Definition visits (evs : list Event) : list NodeId :=
  omap (fun e => match e with Visit n => Some n | _ => None end) evs.

(** A step that only rewrites the [style] attribute of the node [c]. *)
Definition style_step (c : NodeId) (w w' : World) : Prop :=
  next w' = next w /\ trace w' = trace w /\
  (forall id, id <> c -> heap w' !! id = heap w !! id) /\
  exists l, getNode w' c = with_attributes l (getNode w c) /\
    forall name, name <> "style" ->
      assoc_get name l = assoc_get name (attributes (getNode w c)).

(** A computation that resolves and only rewrites the [style]
    attribute of [c]. *)
Definition style_only {A} (c : NodeId) (m : M A) : Prop :=
  forall w, exists a w', m w = (Resolved a, w') /\ style_step c w w'.

(** The text each quirk patch of [cloneCSSStyle] appends to the inline
    style of the clone; empty when the patch does not apply. *)
Definition backgroundClipText (source : CSSStyleDeclaration) : string :=
  let v := getPropertyValue source "-webkit-background-clip" in
  if String.eqb v "border-box" then "" else ";-webkit-background-clip:" ++ v ++ ";".

Definition fontFeatureSettingsText (source : CSSStyleDeclaration) : string :=
  let v := getPropertyValue source "font-feature-settings" in
  if String.eqb v (Js.dquote ++ "kern" ++ Js.dquote) then ""
  else ";font-feature-settings:" ++ v ++ ";".

Definition widthText (native : DomNode) : string :=
  let width := getPropertyValue (computedStyle native) "width" in
  if bool_decide (tagName native = Some "P") && Js.includes width "." then
    let floatWidth := Number.parseFloat width in
    let floatWidth :=
      if Number.gtb (Number.mod1 floatWidth) (Number.ofDecimal false 9 1)
      then Number.add floatWidth (Number.ofZ 1)
      else floatWidth in
    ";width:" ++ Number.toString (Number.ceil floatWidth) ++ "px;"
  else "".

Definition alignItemsText (source : CSSStyleDeclaration) : string :=
  let v := getPropertyValue source "align-items" in
  if String.eqb v "normal" then "" else ";align-items:" ++ v ++ ";".

Definition perspectiveText (source : CSSStyleDeclaration) : string :=
  let v := getPropertyValue source "perspective" in
  if String.eqb v "none" then "" else ";perspective:" ++ v ++ ";".

(** The patch texts of a source node, in the order of the source. *)
Definition quirkTexts (native : DomNode) : list string :=
  [backgroundClipText (computedStyle native);
   fontFeatureSettingsText (computedStyle native);
   widthText native;
   alignItemsText (computedStyle native);
   perspectiveText (computedStyle native)].

(** The nodes of the tree under [node] in document order, as far as
    [d] levels down; the children of a video are left out. *)
Fixpoint preorder (w : World) (d : nat) (node : NodeId) : list NodeId :=
  match d with
  | O => []
  | S d' =>
      node ::
      if instanceof (interface (getNode w node)) HTMLVideoElement then []
      else flat_map (preorder w d') (effectiveChildren w node)
  end.



(** What a run visits: nodes of the tree, in document order; all of
    them when nothing is pruned and the run resolves. *)
Definition walks (opts : Options) (w : World) (d : nat) (expected : list NodeId)
    {A} (out : Outcome A) (w' : World) : Prop :=
  exists evs, trace w' = (trace w ++ evs)%list /\
    visits evs `sublist_of` expected /\
    (filter opts = None -> (exists r, out = Resolved r) -> visits evs = expected).


(** ** Sample documents *)

Module Sample.

Definition element (i : Interface) (tag : string) : DomNode :=
  {| interface := i; tagName := Some tag; attributes := []; hasStyle := true;
     childNodes := []; parentNode := None; shadowRoot := None;
     assignedNodes := None; poster := ""; value := ""; toDataURL := "";
     src := ""; nodeValue := ""; computedStyle := noStyle |}.

Definition with_computedStyle (s : CSSStyleDeclaration) (nd : DomNode) : DomNode :=
  {| interface := interface nd; tagName := tagName nd; attributes := attributes nd;
     hasStyle := hasStyle nd; childNodes := childNodes nd; parentNode := parentNode nd;
     shadowRoot := shadowRoot nd; assignedNodes := assignedNodes nd;
     poster := poster nd; value := value nd; toDataURL := toDataURL nd;
     src := src nd; nodeValue := nodeValue nd; computedStyle := s |}.

Definition with_value (v : string) (nd : DomNode) : DomNode :=
  {| interface := interface nd; tagName := tagName nd; attributes := attributes nd;
     hasStyle := hasStyle nd; childNodes := childNodes nd; parentNode := parentNode nd;
     shadowRoot := shadowRoot nd; assignedNodes := assignedNodes nd;
     poster := poster nd; value := v; toDataURL := toDataURL nd;
     src := src nd; nodeValue := nodeValue nd; computedStyle := computedStyle nd |}.

Definition with_poster (v : string) (nd : DomNode) : DomNode :=
  {| interface := interface nd; tagName := tagName nd; attributes := attributes nd;
     hasStyle := hasStyle nd; childNodes := childNodes nd; parentNode := parentNode nd;
     shadowRoot := shadowRoot nd; assignedNodes := assignedNodes nd;
     poster := v; value := value nd; toDataURL := toDataURL nd;
     src := src nd; nodeValue := nodeValue nd; computedStyle := computedStyle nd |}.

Definition with_toDataURL (v : string) (nd : DomNode) : DomNode :=
  {| interface := interface nd; tagName := tagName nd; attributes := attributes nd;
     hasStyle := hasStyle nd; childNodes := childNodes nd; parentNode := parentNode nd;
     shadowRoot := shadowRoot nd; assignedNodes := assignedNodes nd;
     poster := poster nd; value := value nd; toDataURL := v;
     src := src nd; nodeValue := nodeValue nd; computedStyle := computedStyle nd |}.

(** The computed style of an element that sets nothing of note. *)
Definition plain (width : string) : CSSStyleDeclaration :=
  {| cssText := "width: " ++ width ++ ";";
     declarations :=
       [("-webkit-background-clip", "border-box", "");
        ("font-feature-settings", Js.dquote ++ "kern" ++ Js.dquote, "");
        ("width", width, "");
        ("align-items", "normal", "");
        ("perspective", "none", "")] |}.

Definition child_of (p : NodeId) (nd : DomNode) : DomNode := with_parentNode (Some p) nd.

(** A [clonePseudoElements] that finds pseudo-content on paragraphs
    only: it tags the clone with a class and appends to it a new
    [<style>] element that carries the rule. *)
Definition pseudo (nativeNode clonedNode : NodeId) (w : World) : World :=
  if bool_decide (tagName (getNode w nativeNode) = Some "P") then
    let w1 :=
      write clonedNode
        (with_attributes
           (assoc_set "class" "u0" (attributes (getNode w clonedNode)))
           (getNode w clonedNode)) w in
    let style := next w1 in
    let w2 :=
      {| heap := <[style := with_parentNode (Some clonedNode)
                               (element HTMLElement "STYLE")]> (heap w1);
         next := S style; trace := trace w1 |} in
    write clonedNode
      (with_childNodes (childNodes (getNode w2 clonedNode) ++ [style])%list
         (getNode w2 clonedNode)) w2
  else w.

(** What is left of [s] after [prefix], when it starts with it. *)
Definition after (prefix s : string) : option string :=
  if String.prefix prefix s
  then Some (String.substring (String.length prefix)
               (String.length s - String.length prefix) s)
  else None.

(** The character data of markup in which the only character
    references are those of the less-than sign, the greater-than sign
    and the ampersand. *)
Fixpoint decode (fuel : nat) (s : string) : string :=
  match fuel, s with
  | S fuel', String c r =>
      match after "&lt;" s, after "&gt;" s, after "&amp;" s with
      | Some r', _, _ => String "<" (decode fuel' r')
      | _, Some r', _ => String ">" (decode fuel' r')
      | _, _, Some r' => String "&" (decode fuel' r')
      | _, _, _ => String c (decode fuel' r)
      end
  | _, _ => EmptyString
  end.

(** An inline style with one more declaration at its end. *)
Definition declared (old : option string) (name v priority : string) : option string :=
  let decl :=
    name ++ ": " ++ v ++ (if Js.truthy priority then " !" ++ priority else "") ++ ";" in
  Some (match old with
        | Some text => if Js.truthy text then text ++ " " ++ decl else decl
        | None => decl
        end).

(** A host whose network and decoder only fail on the URLs that say
    so, whose computed style texts are in its own serialised form, and
    whose documents declare no property twice. *)
Definition host : Host :=
  {| network := fun url _ =>
       if String.eqb url "poster://gone" then inl "fetch failed"
       else inr {| blob := "QUJD"; contentType := "image/png" |};
     decoder := fun url =>
       if String.eqb url "data:broken" then Some "decode failed" else None;
     getMimeType := fun url =>
       if Js.includes url ".jpg" then Some "image/jpeg" else None;
     makeDataUrl := fun content mime => "data:" ++ mime ++ ";base64," ++ content;
     clonePseudoElements := pseudo;
     styleText := fun text => text;
     styleWith := declared;
     parseText := fun s => decode (String.length s) s |}.

Definition keep_all : Options := {| filter := None; passthrough := [] |}.

(** Prunes the nodes whose tag is [SCRIPT]. *)
Definition no_script : Options :=
  {| filter := Some (fun h n =>
       negb (bool_decide (tagName (default inhabitant (h !! n)) = Some "SCRIPT")));
     passthrough := [] |}.

(** Rejects every node it is asked about. *)
Definition prune_all : Options :=
  {| filter := Some (fun _ _ => false); passthrough := [] |}.

(** [<div> <p/> <script/> <input/> <canvas/> <canvas/> <video/>
    <textarea/> <video/> </div>]: the paragraph 10.95px wide, the
    input holding 42, the first canvas drawn on and the second empty,
    the first video with a poster and the last without, the textarea
    holding hello. *)
Definition page : World :=
  {| heap :=
       list_to_map
         [(0, with_childNodes [1; 2; 3; 4; 5; 6; 7; 8] (element HTMLElement "DIV"));
          (1, child_of 0 (with_computedStyle (plain "10.95px") (element HTMLElement "P")));
          (2, child_of 0 (element HTMLElement "SCRIPT"));
          (3, child_of 0 (with_value "42" (element HTMLInputElement "INPUT")));
          (4, child_of 0 (with_toDataURL "data:image/png;base64,AAAA"
                            (element HTMLCanvasElement "CANVAS")));
          (5, child_of 0 (with_toDataURL "data:," (element HTMLCanvasElement "CANVAS")));
          (6, child_of 0 (with_poster "https://cdn.test/still.jpg"
                            (element HTMLVideoElement "VIDEO")));
          (7, child_of 0 (with_value "hello" (element HTMLTextAreaElement "TEXTAREA")));
          (8, child_of 0 (element HTMLVideoElement "VIDEO"))];
     next := 9;
     trace := [] |}.

(** A video whose poster cannot be fetched, inside a [<div>]. *)
Definition broken_page : World :=
  {| heap :=
       list_to_map
         [(0, with_childNodes [1; 2] (element HTMLElement "DIV"));
          (1, child_of 0 (with_poster "poster://gone" (element HTMLVideoElement "VIDEO")));
          (2, child_of 0 (element HTMLElement "SPAN"))];
     next := 3;
     trace := [] |}.

(** A custom element with a shadow tree: [<x-card>] holds a [<span>]
    in the light tree, and its shadow root holds a [<slot>] to which
    the [<span>] is assigned. *)
Definition widget : World :=
  {| heap :=
       list_to_map
         [(0, {| interface := HTMLElement; tagName := Some "X-CARD"; attributes := [];
                 hasStyle := true; childNodes := [1]; parentNode := None;
                 shadowRoot := Some 2; assignedNodes := None; poster := "";
                 value := ""; toDataURL := ""; src := ""; nodeValue := "";
                 computedStyle := noStyle |});
          (1, child_of 0 (element HTMLElement "SPAN"));
          (2, {| interface := ShadowRoot; tagName := None; attributes := [];
                 hasStyle := false; childNodes := [3]; parentNode := None;
                 shadowRoot := None; assignedNodes := None; poster := "";
                 value := ""; toDataURL := ""; src := ""; nodeValue := "";
                 computedStyle := noStyle |});
          (3, {| interface := HTMLElement; tagName := Some "slot"; attributes := [];
                 hasStyle := true; childNodes := []; parentNode := Some 2;
                 shadowRoot := None; assignedNodes := Some [1]; poster := "";
                 value := ""; toDataURL := ""; src := ""; nodeValue := "";
                 computedStyle := noStyle |})];
     next := 4;
     trace := [] |}.

(** The document [page] once the shallow clone of its root exists. *)
Definition page_with_root_clone : World := (shallowClone 0 page).2.


(** A textarea with the text it was loaded with as its child, and a
    value typed over it since. *)
Definition memo : World :=
  {| heap :=
       list_to_map
         [(0, with_childNodes [1]
                (with_value "edited" (element HTMLTextAreaElement "TEXTAREA")));
          (1, {| interface := Text; tagName := None; attributes := [];
                 hasStyle := false; childNodes := []; parentNode := Some 0;
                 shadowRoot := None; assignedNodes := None; poster := "";
                 value := ""; toDataURL := ""; src := ""; nodeValue := "";
                 computedStyle := noStyle |})];
     next := 2;
     trace := [] |}.

(** A textarea into which [1 &lt; 2] has been typed. *)
Definition snippet : World :=
  {| heap :=
       list_to_map
         [(0, with_value "1 &lt; 2" (element HTMLTextAreaElement "TEXTAREA"))];
     next := 1;
     trace := [] |}.

(** A video whose poster cannot be fetched, between two [<span>]s. *)
Definition late_failure : World :=
  {| heap :=
       list_to_map
         [(0, with_childNodes [1; 2; 3] (element HTMLElement "DIV"));
          (1, child_of 0 (element HTMLElement "SPAN"));
          (2, child_of 0 (with_poster "poster://gone" (element HTMLVideoElement "VIDEO")));
          (3, child_of 0 (element HTMLElement "SPAN"))];
     next := 4;
     trace := [] |}.

End Sample.

(** * Reasoning about runs *)

Lemma bind_run {A B} (m : M A) (k : A -> M B) w :
  bind m k w =
  match m w with
  | (Resolved a, w') => k a w'
  | (Rejected e, w') => (Rejected e, w')
  | (Pending, w') => (Pending, w')
  end.
Proof. reflexivity. Qed.

Ltac step :=
  rewrite bind_run;
  unfold log, update; unfold read, ret, current, modify, reject;
  cbv beta iota zeta.

Ltac step_read := rewrite bind_run; unfold read at 1; cbv beta iota zeta.

Lemma bind_resolved {A B} (m : M A) (k : A -> M B) w a w1 :
  m w = (Resolved a, w1) -> bind m k w = k a w1.
Proof. intros H. rewrite bind_run, H. reflexivity. Qed.

Lemma bind_inv {A B} (m : M A) (k : A -> M B) w out w' :
  bind m k w = (out, w') ->
  (exists a w1, m w = (Resolved a, w1) /\ k a w1 = (out, w')) \/
  (exists e, m w = (Rejected e, w') /\ out = Rejected e) \/
  (m w = (Pending, w') /\ out = Pending).
Proof.
  rewrite bind_run. destruct (m w) as [[a|e|] w1]; intros H.
  - left. eauto.
  - right. left. inversion H; subst. eauto.
  - right. right. inversion H; subst. eauto.
Qed.

(** * The store *)

Lemma getNode_write_eq id nd w : getNode (write id nd w) id = nd.
Proof. unfold getNode, write. simpl. rewrite lookup_insert_eq. reflexivity. Qed.

Lemma getNode_write_ne id id' nd w :
  id <> id' -> getNode (write id nd w) id' = getNode w id'.
Proof. intros H. unfold getNode, write. simpl. rewrite lookup_insert_ne by done. reflexivity. Qed.

Lemma heap_write_ne id id' nd w :
  id <> id' -> heap (write id nd w) !! id' = heap w !! id'.
Proof. intros H. unfold write. simpl. by rewrite lookup_insert_ne. Qed.

Lemma getNode_agree w w' id :
  heap w' !! id = heap w !! id -> getNode w' id = getNode w id.
Proof. unfold getNode. intros ->. reflexivity. Qed.

Lemma with_attributes_id nd : with_attributes (attributes nd) nd = nd.
Proof. destruct nd; reflexivity. Qed.

Lemma agree_below_refl k w : agree_below k w w.
Proof. intros id _. reflexivity. Qed.

Lemma agree_below_trans k w1 w2 w3 :
  agree_below k w1 w2 -> agree_below k w2 w3 -> agree_below k w1 w3.
Proof. intros H1 H2 id Hid. rewrite H2, H1; auto. Qed.

Lemma agree_below_weaken k k' w w' :
  k <= k' -> agree_below k' w w' -> agree_below k w w'.
Proof. intros Hk H id Hid. apply H. lia. Qed.

Lemma agree_below_write k id nd w :
  k <= id -> agree_below k w (write id nd w).
Proof. intros Hk id' Hid. apply heap_write_ne. lia. Qed.

(** * Computations that only rewrite the attributes of one node *)

Lemma attrs_step_refl c w : attrs_step c w w.
Proof.
  repeat split; auto. exists (attributes (getNode w c)).
  symmetry. apply with_attributes_id.
Qed.

Lemma attrs_step_trans c w1 w2 w3 :
  attrs_step c w1 w2 -> attrs_step c w2 w3 -> attrs_step c w1 w3.
Proof.
  intros (Hn1 & Ht1 & Hf1 & l1 & Hl1) (Hn2 & Ht2 & Hf2 & l2 & Hl2).
  repeat split; try congruence.
  - intros id Hid. rewrite Hf2, Hf1; auto.
  - exists l2. rewrite Hl2, Hl1. reflexivity.
Qed.

Lemma attrs_only_ret {A} c (a : A) : attrs_only c (ret a).
Proof. intros w. exists a, w. split; [reflexivity | apply attrs_step_refl]. Qed.

Lemma attrs_only_bind {A B} c (m : M A) (k : A -> M B) :
  attrs_only c m -> (forall a, attrs_only c (k a)) -> attrs_only c (bind m k).
Proof.
  intros Hm Hk w. destruct (Hm w) as (a & w1 & Hrun & Hs1).
  destruct (Hk a w1) as (b & w2 & Hrun2 & Hs2).
  exists b, w2. split.
  - rewrite (bind_resolved _ _ _ _ _ Hrun). exact Hrun2.
  - eapply attrs_step_trans; eauto.
Qed.

Lemma attrs_only_read c id : attrs_only c (read id).
Proof. intros w. exists (getNode w id), w. split; [reflexivity | apply attrs_step_refl]. Qed.

Lemma attrs_only_getAttribute c name : attrs_only c (getAttribute c name).
Proof.
  unfold getAttribute. apply attrs_only_bind; [apply attrs_only_read|].
  intros nd. apply attrs_only_ret.
Qed.

Lemma attrs_only_setAttribute c name v : attrs_only c (setAttribute c name v).
Proof.
  intros w. eexists tt, _. split; [reflexivity|].
  repeat split; auto.
  - intros id Hid. apply heap_write_ne. congruence.
  - eexists. apply getNode_write_eq.
Qed.

Lemma attrs_only_if {A} c (b : bool) (m1 m2 : M A) :
  attrs_only c m1 -> attrs_only c m2 -> attrs_only c (if b then m1 else m2).
Proof. destruct b; auto. Qed.

Lemma attrs_only_forEach {A} c (l : list A) (f : A -> M unit) :
  (forall x, attrs_only c (f x)) -> attrs_only c (forEach l f).
Proof.
  intros Hf. induction l as [|x l IH]; simpl.
  - apply attrs_only_ret.
  - apply attrs_only_bind; auto.
Qed.

Lemma attrs_only_style_setProperty declare c name v p :
  attrs_only c (style_setProperty declare c name v p).
Proof.
  unfold style_setProperty. apply attrs_only_bind; [apply attrs_only_getAttribute|].
  intros old. destruct (declare old name v p).
  - apply attrs_only_setAttribute.
  - apply attrs_only_ret.
Qed.

Create HintDb attrs.
#[local] Hint Resolve attrs_only_ret attrs_only_read attrs_only_getAttribute
  attrs_only_setAttribute attrs_only_style_setProperty : attrs.

Ltac attrs_auto :=
  repeat first
    [ solve [auto with attrs]
    | apply attrs_only_bind; [|intros ?]
    | apply attrs_only_if
    | apply attrs_only_forEach; intros ?
    | match goal with |- attrs_only _ (match ?x with _ => _ end) => destruct x end ].

Lemma attrs_only_fixTextWrap n c : attrs_only c (fixTextWrap n c).
Proof. unfold fixTextWrap. attrs_auto. Qed.

Lemma attrs_only_cloneCSSStyle host n c : attrs_only c (cloneCSSStyle host n c).
Proof.
  unfold cloneCSSStyle, patchBackgroundClip, patchFontFeatureSettings,
    patchAlignItems, patchPerspective, style_set_cssText.
  attrs_auto.
Qed.


(** * The child loop *)

Lemma bind_ret_unit (m : M unit) w : bind m (fun _ => ret tt) w = m w.
Proof. rewrite bind_run. destruct (m w) as [[[]|e|] w1]; reflexivity. Qed.

Lemma bind_assoc {A B C} (m : M A) (f : A -> M B) (g : B -> M C) w :
  bind (bind m f) g w = bind m (fun a => bind (f a) g) w.
Proof. rewrite !bind_run. destruct (m w) as [[a|e|] w1]; reflexivity. Qed.

Lemma bind_ext {A B} (m : M A) (f g : A -> M B) w :
  (forall a w1, f a w1 = g a w1) -> bind m f w = bind m g w.
Proof. intros H. rewrite !bind_run. destruct (m w) as [[a|e|] w1]; auto. Qed.

Lemma fold_left_cloneEach rec c opts children : forall (acc : M unit) w,
  List.fold_left
    (fun deferred child =>
       deferred ;;;
       let* clonedChild := rec child opts None in
       match clonedChild with
       | Some c' => appendChild c c'
       | None => ret tt
       end)
    children acc w
  = (acc ;;; cloneEach rec c opts children) w.
Proof.
  induction children as [|child rest IH]; intros acc w; simpl.
  - symmetry. apply bind_ret_unit.
  - rewrite IH, bind_assoc. apply bind_ext. intros [] w1.
    rewrite bind_assoc. reflexivity.
Qed.

Lemma cloneChildren_run rec n c opts w :
  cloneChildren rec n c opts w =
  if skipsChildren w n then (Resolved c, w)
  else (cloneEach rec c opts (effectiveChildren w n) ;;; ret c) w.
Proof.
  unfold cloneChildren, skipsChildren.
  rewrite bind_run. simpl. rewrite bind_run. simpl.
  destruct (_ || _); [reflexivity|].
  rewrite bind_run, fold_left_cloneEach.
  rewrite (bind_run (ret tt)). simpl. reflexivity.
Qed.

(** * Appending a detached node *)

Lemma appendChild_detached c c' w :
  parentNode (getNode w c') = None ->
  appendChild c c' w = (Resolved tt, appended c c' w).
Proof.
  intros H. unfold appendChild. rewrite bind_run. simpl.
  rewrite bind_run, H. reflexivity.
Qed.

Lemma appended_next c c' w : next (appended c c' w) = next w.
Proof. reflexivity. Qed.

Lemma appended_trace c c' w : trace (appended c c' w) = trace w.
Proof. reflexivity. Qed.

Lemma appended_other c c' w id :
  id <> c -> id <> c' -> heap (appended c c' w) !! id = heap w !! id.
Proof.
  intros H1 H2. unfold appended.
  rewrite !heap_write_ne by congruence. reflexivity.
Qed.

Lemma appended_parent c c' w :
  c <> c' ->
  getNode (appended c c' w) c =
  with_childNodes (childNodes (getNode w c) ++ [c'])%list (getNode w c).
Proof.
  intros H. unfold appended. rewrite getNode_write_eq.
  rewrite getNode_write_ne by congruence. reflexivity.
Qed.

Lemma appended_agree k c c' w :
  k <= c -> k <= c' -> agree_below k w (appended c c' w).
Proof. intros H1 H2 id Hid. apply appended_other; lia. Qed.

(** * Detaching the children of a node *)

Lemma detach_all_run l : forall w,
  exists w', detach_all l w = (Resolved tt, w') /\
    next w' = next w /\ trace w' = trace w /\
    (forall id, id ∉ l -> heap w' !! id = heap w !! id) /\
    (forall id, parentNode (getNode w id) = None -> parentNode (getNode w' id) = None) /\
    (forall id, interface (getNode w' id) = interface (getNode w id)).
Proof.
  induction l as [|c l IH]; intros w; simpl.
  - exists w. repeat split; auto.
  - unfold detach_all in *. simpl. step.
    destruct (IH (write c (with_parentNode None (getNode w c)) w))
      as (w' & Hrun & Hn & Ht & Hf & Hp & Hi).
    exists w'. split; [exact Hrun|]. repeat split; auto.
    + intros id Hid. rewrite Hf by set_solver.
      apply heap_write_ne. set_solver.
    + intros id Hid. apply Hp.
      destruct (decide (c = id)) as [->|Hne].
      * rewrite getNode_write_eq. reflexivity.
      * rewrite getNode_write_ne by done. exact Hid.
    + intros id. rewrite Hi.
      destruct (decide (c = id)) as [->|Hne].
      * rewrite getNode_write_eq. reflexivity.
      * rewrite getNode_write_ne by done. reflexivity.
Qed.

Lemma reparsed_next c text w : next w <= next (reparsed c text w).
Proof. unfold reparsed. destruct (Js.truthy text); simpl; lia. Qed.

Lemma reparsed_trace c text w : trace (reparsed c text w) = trace w.
Proof. unfold reparsed. destruct (Js.truthy text); reflexivity. Qed.

Lemma reparsed_other c text w id :
  id < next w -> id <> c -> heap (reparsed c text w) !! id = heap w !! id.
Proof.
  intros Hid Hne. unfold reparsed. destruct (Js.truthy text).
  - rewrite heap_write_ne by congruence. simpl.
    rewrite lookup_insert_ne by lia. reflexivity.
  - apply heap_write_ne. congruence.
Qed.

Lemma reparsed_node c text w :
  c < next w ->
  getNode (reparsed c text w) c
  = with_childNodes (if Js.truthy text then [next w] else []) (getNode w c).
Proof.
  intros Hc. unfold reparsed. destruct (Js.truthy text).
  - rewrite getNode_write_eq. f_equal. unfold getNode. simpl.
    rewrite lookup_insert_ne by lia. reflexivity.
  - apply getNode_write_eq.
Qed.

Lemma reparsed_text c text w :
  Js.truthy text = true ->
  c <> next w ->
  getNode (reparsed c text w) (next w) = textNode c text.
Proof.
  intros Ht Hne. unfold reparsed. rewrite Ht.
  rewrite getNode_write_ne by exact Hne. unfold getNode. simpl.
  rewrite lookup_insert_eq. reflexivity.
Qed.

Lemma set_innerHTML_run parse c s w :
  exists w1,
    set_innerHTML parse c s w = (Resolved tt, reparsed c (parse s) w1) /\
    next w1 = next w /\ trace w1 = trace w /\
    (forall id, id ∉ childNodes (getNode w c) -> heap w1 !! id = heap w !! id) /\
    (forall id, parentNode (getNode w id) = None -> parentNode (getNode w1 id) = None) /\
    (forall id, interface (getNode w1 id) = interface (getNode w id)).
Proof.
  destruct (detach_all_run (childNodes (getNode w c)) w) as (w1 & Hrun & Hfacts).
  exists w1. split; [|exact Hfacts].
  unfold set_innerHTML. rewrite bind_run. unfold read. cbv beta iota.
  rewrite bind_run. fold (detach_all (childNodes (getNode w c))).
  rewrite Hrun. unfold reparsed. destruct (Js.truthy (parse s)); reflexivity.
Qed.

Lemma cloneInputValue_post host k n c w out w' :
  ready k c w ->
  cloneInputValue host n c w = (out, w') ->
  out = Resolved tt /\ next w <= next w' /\ trace w' = trace w /\
  agree_below k w w' /\ ready k c w'.
Proof.
  intros Hready. pose proof Hready as (Hk & Hc & Hp & Hch).
  unfold cloneInputValue. step_read.
  assert (Hstage : exists w1,
    (if instanceof (interface (getNode w n)) HTMLTextAreaElement
     then set_innerHTML (parseText host) c (value (getNode w n)) else ret tt) w
    = (Resolved tt, w1) /\
    next w <= next w1 /\ trace w1 = trace w /\ agree_below k w w1 /\ ready k c w1).
  { destruct (instanceof _ HTMLTextAreaElement).
    - destruct (set_innerHTML_run (parseText host) c (value (getNode w n)) w)
        as (w1 & Hrun & Hn & Ht & Hf & Hpar & _).
      eexists. split; [exact Hrun|].
      pose proof (reparsed_next c (parseText host (value (getNode w n))) w1) as Hn2.
      assert (Hc1 : c < next w1) by lia.
      split; [lia|]. split; [rewrite reparsed_trace; exact Ht|]. split.
      + intros id Hid. rewrite reparsed_other by lia. apply Hf.
        intros Hin. rewrite Forall_forall in Hch. specialize (Hch _ Hin). lia.
      + unfold ready. rewrite (reparsed_node _ _ _ Hc1).
        cbn [parentNode childNodes with_childNodes].
        repeat split; [exact Hk|lia|auto|].
        destruct (Js.truthy _); repeat constructor. lia.
    - exists w. repeat split; auto using agree_below_refl. }
  destruct Hstage as (w1 & Hrun & Hn & Ht & Hf & Hk1 & Hc1 & Hp1 & Hch1).
  rewrite bind_run, Hrun. step_read.
  destruct (instanceof _ HTMLInputElement).
  - unfold setAttribute, update, modify. intros [= <- <-].
    split; [reflexivity|]. split; [exact Hn|]. split; [exact Ht|]. split.
    + eapply agree_below_trans; [exact Hf|]. apply agree_below_write. exact Hk.
    + unfold ready. rewrite getNode_write_eq. simpl. auto.
  - unfold ret. intros [= <- <-]. unfold ready. auto 10.
Qed.

(** * What a run adds to the trace *)

Lemma traced_quiet {A} (m : M A) :
  (forall w, exists a w', m w = (Resolved a, w') /\ trace w' = trace w) -> traced m.
Proof.
  intros H w out w' Hrun. destruct (H w) as (a & w1 & Hrun1 & Ht).
  rewrite Hrun1 in Hrun. inversion Hrun; subst.
  exists []. rewrite app_nil_r. auto.
Qed.

Lemma traced_ret {A} (a : A) : traced (ret a).
Proof. apply traced_quiet. intros w. exists a, w. auto. Qed.

Lemma traced_read id : traced (read id).
Proof. apply traced_quiet. intros w. eexists _, w. split; reflexivity. Qed.

Lemma traced_current : traced current.
Proof. apply traced_quiet. intros w. eexists _, w. split; reflexivity. Qed.

Lemma traced_update id f : traced (update id f).
Proof. apply traced_quiet. intros w. eexists _, _. split; reflexivity. Qed.

Lemma traced_alloc nd : traced (alloc nd).
Proof. apply traced_quiet. intros w. eexists _, _. split; reflexivity. Qed.

Lemma traced_pending {A} : traced (@pending A).
Proof.
  intros w out w' [= <- <-]. exists []. rewrite app_nil_r. auto.
Qed.

Lemma traced_attrs_only {A} c (m : M A) : attrs_only c m -> traced m.
Proof.
  intros H. apply traced_quiet. intros w.
  destruct (H w) as (a & w' & Hrun & _ & Ht & _). eauto.
Qed.

Lemma traced_bind {A B} (m : M A) (k : A -> M B) :
  traced m -> (forall a, traced (k a)) -> traced (bind m k).
Proof.
  intros Hm Hk w out w' Hrun.
  destruct (bind_inv _ _ _ _ _ Hrun) as [(a & w1 & H1 & H2)|[(e & H1 & ->)|(H1 & ->)]].
  - destruct (Hm _ _ _ H1) as (evs1 & Ht1 & Hr1).
    destruct (Hk a _ _ _ H2) as (evs2 & Ht2 & Hr2).
    exists (evs1 ++ evs2)%list. split.
    + rewrite Ht2, Ht1, app_assoc. reflexivity.
    + unfold rejections in *. rewrite omap_app, Hr1, Hr2. reflexivity.
  - destruct (Hm _ _ _ H1) as (evs1 & Ht1 & Hr1). eauto.
  - destruct (Hm _ _ _ H1) as (evs1 & Ht1 & Hr1). eauto.
Qed.

Lemma traced_if {A} (b : bool) (m1 m2 : M A) :
  traced m1 -> traced m2 -> traced (if b then m1 else m2).
Proof. destruct b; auto. Qed.

Lemma traced_forEach {A} (l : list A) (f : A -> M unit) :
  (forall x, traced (f x)) -> traced (forEach l f).
Proof.
  intros Hf. induction l as [|x l IH]; simpl.
  - apply traced_ret.
  - apply traced_bind; auto.
Qed.

Lemma traced_log_visit n : traced (log (Visit n)).
Proof.
  intros w out w' [= <- <-]. exists [Visit n]. split; reflexivity.
Qed.

Lemma traced_appendChild c c' : traced (appendChild c c').
Proof.
  unfold appendChild.
  apply traced_bind; [apply traced_read|]. intros nd.
  apply traced_bind.
  - destruct (parentNode nd); [apply traced_update|apply traced_ret].
  - intros _. apply traced_bind; [apply traced_update|].
    intros _. apply traced_update.
Qed.

Lemma traced_set_innerHTML parse c s : traced (set_innerHTML parse c s).
Proof.
  unfold set_innerHTML.
  apply traced_bind; [apply traced_read|]. intros nd.
  apply traced_bind; [apply traced_forEach; intros x; apply traced_update|].
  intros _. apply traced_if; [|apply traced_update].
  apply traced_bind; [apply traced_alloc|]. intros text. apply traced_update.
Qed.

Lemma traced_cloneInputValue host n c : traced (cloneInputValue host n c).
Proof.
  unfold cloneInputValue.
  apply traced_bind; [apply traced_read|]. intros nd.
  apply traced_bind.
  - apply traced_if; [apply traced_set_innerHTML|apply traced_ret].
  - intros _. apply traced_bind; [apply traced_read|]. intros nd'.
    apply traced_if; [apply traced_update|apply traced_ret].
Qed.

Lemma traced_cloneEach rec c opts :
  (forall child, traced (rec child opts None)) ->
  forall children, traced (cloneEach rec c opts children).
Proof.
  intros Hrec. induction children as [|child rest IH]; simpl.
  - apply traced_ret.
  - apply traced_bind; [apply Hrec|]. intros r.
    apply traced_bind; [|intros _; exact IH].
    destruct r; [apply traced_appendChild|apply traced_ret].
Qed.

Lemma traced_ext {A} (m m' : M A) :
  (forall w, m w = m' w) -> traced m' -> traced m.
Proof. intros H Hm w out w' Hrun. rewrite H in Hrun. eauto. Qed.

Lemma traced_cloneChildren rec n c opts :
  (forall child, traced (rec child opts None)) ->
  traced (cloneChildren rec n c opts).
Proof.
  intros Hrec w out w'. rewrite cloneChildren_run.
  destruct (skipsChildren w n).
  - intros [= <- <-]. exists []. rewrite app_nil_r. auto.
  - apply traced_bind; [apply traced_cloneEach, Hrec|].
    intros _. apply traced_ret.
Qed.

Section Proofs.

Variable host : Host.

(** * The shallow clone of one node *)

Lemma cloneSingleNode_post node opts w out w' :
  cloneSingleNode host node opts w = (out, w') ->
  next w <= next w' /\ agree_below (next w) w w' /\
  forall c, out = Resolved c ->
    c = next w /\ next w' = S (next w) /\
    parentNode (getNode w' c) = None /\ childNodes (getNode w' c) = [].
Proof.
  unfold cloneSingleNode, cloneCanvasElement, cloneVideoElement,
    shallowClone, createImage, getBlobFromURL.
  step.
  assert (Halloc : forall nd (w0 : World) o w1,
    trace w0 = trace w0 -> heap w0 = heap w -> next w0 = next w ->
    parentNode nd = None -> childNodes nd = [] ->
    alloc nd w0 = (o, w1) ->
    next w <= next w1 /\ agree_below (next w) w w1 /\
    forall c, o = Resolved c ->
      c = next w /\ next w1 = S (next w) /\
      parentNode (getNode w1 c) = None /\ childNodes (getNode w1 c) = []).
  { intros nd w0 o w1 _ Hh Hn Hp Hc Hrun. unfold alloc in Hrun.
    inversion Hrun; subst; clear Hrun. simpl. rewrite Hh, Hn.
    split; [lia|]. split.
    - intros id Hid. simpl. rewrite lookup_insert_ne by lia. reflexivity.
    - intros c [= <-]. unfold getNode. simpl.
      rewrite lookup_insert_eq. simpl. auto. }
  assert (Hfail : forall (w0 : World) e (o : Outcome NodeId) w1,
    heap w0 = heap w -> next w0 = next w ->
    (Rejected e, w0) = (o, w1) ->
    next w <= next w1 /\ agree_below (next w) w w1 /\
    forall c, o = Resolved c ->
      c = next w /\ next w1 = S (next w) /\
      parentNode (getNode w1 c) = None /\ childNodes (getNode w1 c) = []).
  { intros w0 e o w1 Hh Hn [= <- <-]. rewrite Hn. split; [lia|]. split.
    - intros id _. rewrite Hh. reflexivity.
    - intros c Hc. discriminate. }
  assert (Himg : forall url (w0 : World) o w1,
    heap w0 = heap w -> next w0 = next w ->
    match decoder host url with
    | Some e => log (CreateImage url (Some e)) ;;; reject e
    | None =>
        log (CreateImage url None) ;;;
        alloc {| interface := HTMLImageElement; tagName := Some "IMG";
                 attributes := [("src", url)]; hasStyle := true;
                 childNodes := []; parentNode := None; shadowRoot := None;
                 assignedNodes := None; poster := ""; value := "";
                 toDataURL := ""; src := url; nodeValue := "";
                 computedStyle := noStyle |}
    end w0 = (o, w1) ->
    next w <= next w1 /\ agree_below (next w) w w1 /\
    forall c, o = Resolved c ->
      c = next w /\ next w1 = S (next w) /\
      parentNode (getNode w1 c) = None /\ childNodes (getNode w1 c) = []).
  { intros url w0 o w1 Hh Hn. destruct (decoder host url) as [e|].
    - step. apply Hfail; auto.
    - step. apply Halloc; auto. }
  destruct (instanceof (interface (getNode w node)) HTMLCanvasElement).
  - repeat step.
    destruct (String.eqb _ _).
    + repeat step. apply Halloc; auto.
    + apply Himg; auto.
  - destruct (_ && _).
    + repeat step.
      destruct (network host _ opts) as [e|data].
      * repeat step. apply Hfail; auto.
      * repeat step. apply Himg; auto.
    + repeat step. apply Halloc; auto.
Qed.

(** * Decoration *)

Hypothesis pseudo_ok : pseudo_contract (clonePseudoElements host).

Lemma decorate_post k n c w out w' :
  ready k c w ->
  decorate host n c w = (out, w') ->
  out = Resolved c /\ next w <= next w' /\ trace w' = trace w /\
  agree_below k w w' /\ parentNode (getNode w' c) = None.
Proof.
  intros Hready. pose proof Hready as (Hk & Hc & Hp & Hch).
  unfold decorate. step.
  destruct (negb _).
  { intros [= <- <-]. repeat split; auto using agree_below_refl. }
  step.
  destruct (attrs_only_cloneCSSStyle host n c w)
    as (a & w1 & Hrun & Hn1 & Ht1 & Hf1 & l & Hl).
  rewrite bind_run, Hrun. step.
  set (w2 := clonePseudoElements host n c w1).
  assert (Hready2 : ready k c w2).
  { split; [exact Hk|]. split.
    - pose proof (pseudo_next _ pseudo_ok n c w1). fold w2 in H. lia.
    - split.
      + unfold w2. rewrite (pseudo_parent _ pseudo_ok) by lia.
        rewrite Hl. simpl. exact Hp.
      + rewrite Forall_forall. intros ch Hin.
        assert (Hc1 : c < next w1) by lia.
        destruct (pseudo_children _ pseudo_ok n c w1 ch Hc1 Hin) as [Hold|Hnew].
        * rewrite Hl in Hold. simpl in Hold.
          rewrite Forall_forall in Hch. auto.
        * lia. }
  rewrite bind_run.
  destruct (cloneInputValue host n c w2) as [o3 w3] eqn:Hrun3.
  destruct (cloneInputValue_post host k n c w2 o3 w3 Hready2 Hrun3)
    as (-> & Hn3 & Ht3 & Hf3 & _ & _ & Hp3 & _).
  intros [= <- <-].
  pose proof (pseudo_next _ pseudo_ok n c w1) as Hn2. fold w2 in Hn2.
  repeat split; auto.
  - lia.
  - rewrite Ht3. unfold w2. rewrite (pseudo_trace _ pseudo_ok). exact Ht1.
  - intros id Hid. rewrite Hf3 by exact Hid.
    unfold w2. rewrite (pseudo_frame _ pseudo_ok) by lia.
    apply Hf1. lia.
Qed.


(** * The recursion *)

Lemma ready_agree k c w w' :
  ready k c w -> next w <= next w' -> agree_below (next w) w w' -> ready k c w'.
Proof.
  intros (Hk & Hc & Hp & Hch) Hn Hf.
  assert (Hsame : getNode w' c = getNode w c) by (apply getNode_agree, Hf, Hc).
  unfold ready. rewrite Hsame. repeat split; auto. lia.
Qed.

Lemma ready_appended k c c' w :
  ready k c w -> next w <= next w -> k <= c' -> c <> c' -> ready k c (appended c c' w).
Proof.
  intros (Hk & Hc & Hp & Hch) _ Hc' Hne. unfold ready.
  rewrite appended_parent by exact Hne. simpl.
  repeat split; auto. apply Forall_app. split; [exact Hch|].
  constructor; [exact Hc'|constructor].
Qed.

Lemma cloneEach_post rec opts k c :
  (forall child w out w', rec child opts None w = (out, w') -> node_post w out w') ->
  forall children w out w',
    ready k c w ->
    cloneEach rec c opts children w = (out, w') ->
    next w <= next w' /\ agree_below k w w' /\ ready k c w' /\
    (out = Resolved tt ->
     exists rs, seq_clone rec c opts children w rs w' /\
       childNodes (getNode w' c) = (childNodes (getNode w c) ++ omap id rs)%list).
Proof.
  intros Hrec. induction children as [|child rest IH]; intros w out w' Hready.
  - simpl. unfold ret. intros [= <- <-]. repeat split; auto using agree_below_refl.
    + apply Hready.
    + apply Hready.
    + apply Hready.
    + apply Hready.
    + intros _. exists []. split; [constructor|]. simpl. rewrite app_nil_r. reflexivity.
  - simpl. rewrite bind_run.
    destruct (rec child opts None w) as [[r|e|] w1] eqn:Hrun.
    2,3: destruct (Hrec _ _ _ _ Hrun) as (Hn & Hf & _);
      intros [= <- <-]; repeat split;
      [ exact Hn
      | eapply agree_below_weaken; [|exact Hf]; destruct Hready; lia
      | apply (ready_agree k c w w1 Hready Hn Hf)..
      | discriminate ].
    destruct (Hrec _ _ _ _ Hrun) as (Hn & Hf & Hc').
    pose proof (ready_agree k c w w1 Hready Hn Hf) as Hready1.
    pose proof Hready as (Hk & Hc & Hp & Hch).
    assert (Hsame : getNode w1 c = getNode w c) by (apply getNode_agree, Hf, Hc).
    assert (Hfk : agree_below k w w1) by (eapply agree_below_weaken; [|exact Hf]; lia).
    rewrite bind_run.
    destruct r as [c'|].
    + destruct (Hc' c' eq_refl) as (Hlo & Hhi & Hpar).
      rewrite (appendChild_detached c c' w1 Hpar).
      assert (Hne : c <> c') by lia.
      assert (Hready2 : ready k c (appended c c' w1))
        by (apply ready_appended; auto; lia).
      intros Hrest.
      destruct (IH _ _ _ Hready2 Hrest) as (Hn2 & Hf2 & Hready' & Hseq).
      rewrite appended_next in Hn2.
      split; [lia|]. split.
      { eapply agree_below_trans; [exact Hfk|].
        eapply agree_below_trans; [|exact Hf2].
        apply appended_agree; lia. }
      split; [exact Hready'|].
      intros Hout. destruct (Hseq Hout) as (rs & Hs & Hchildren).
      exists (Some c' :: rs). split.
      * econstructor; [exact Hrun| |exact Hs].
        apply appendChild_detached. exact Hpar.
      * rewrite Hchildren, appended_parent by exact Hne. simpl.
        rewrite Hsame, <- app_assoc. reflexivity.
    + unfold ret at 1. intros Hrest.
      destruct (IH _ _ _ Hready1 Hrest) as (Hn2 & Hf2 & Hready' & Hseq).
      split; [lia|]. split.
      { eapply agree_below_trans; [exact Hfk|exact Hf2]. }
      split; [exact Hready'|].
      intros Hout. destruct (Hseq Hout) as (rs & Hs & Hchildren).
      exists (None :: rs). split.
      * econstructor; [exact Hrun|reflexivity|exact Hs].
      * rewrite Hchildren, Hsame. reflexivity.
Qed.

Lemma cloneNode_post fuel : forall node opts r w out w',
  cloneNode host fuel node opts r w = (out, w') -> node_post w out w'.
Proof.
  induction fuel as [|fuel IH]; intros node opts r w out w'.
  - simpl. unfold pending. intros [= <- <-].
    split; [lia|]. split; [apply agree_below_refl|]. discriminate.
  - cbn [cloneNode]. step. step.
    set (wl := logged (Visit node) w).
    assert (Hpost : forall o w1, node_post wl o w1 -> node_post w o w1) by (intros o w1 H; exact H).
    destruct (_ && _).
    { intros [= <- <-]. apply Hpost.
      split; [lia|]. split; [apply agree_below_refl|]. discriminate. }
    rewrite bind_run.
    destruct (cloneSingleNode host node opts wl) as [[c1|e|] w1] eqn:Hsingle;
      destruct (cloneSingleNode_post _ _ _ _ _ Hsingle) as (Hn1 & Hf1 & Hc1).
    2,3: intros [= <- <-]; apply Hpost; split; [exact Hn1|]; split; [exact Hf1|]; discriminate.
    destruct (Hc1 c1 eq_refl) as (-> & Hnext1 & Hpar1 & Hch1).
    assert (Hready1 : ready (next wl) (next wl) w1).
    { unfold ready. rewrite Hpar1, Hch1. repeat split; auto. lia. }
    rewrite bind_run, cloneChildren_run.
    assert (Hkids : forall o w2,
      (if skipsChildren w1 node then (Resolved (next wl), w1)
       else (cloneEach (cloneNode host fuel) (next wl) opts
               (effectiveChildren w1 node) ;;; ret (next wl)) w1) = (o, w2) ->
      next w1 <= next w2 /\ agree_below (next wl) w1 w2 /\ ready (next wl) (next wl) w2 /\
      (forall c, o = Resolved c -> c = next wl)).
    { intros o w2. destruct (skipsChildren w1 node).
      - intros [= <- <-]. repeat split; auto using agree_below_refl; try apply Hready1.
        intros c [= <-]. reflexivity.
      - rewrite bind_run.
        destruct (cloneEach _ _ _ _ w1) as [[[]|e|] w2'] eqn:Heach;
          destruct (cloneEach_post _ opts _ _ (fun ch => IH ch opts None) _ _ _ _ Hready1 Heach)
            as (Hn2 & Hf2 & Hr2 & _);
          unfold ret; intros [= <- <-]; repeat split; auto; try apply Hr2;
          try discriminate.
        intros c [= <-]. reflexivity. }
    destruct (if skipsChildren w1 node then _ else _) as [[c2|e|] w2] eqn:Hchildren;
      destruct (Hkids _ _ eq_refl) as (Hn2 & Hf2 & Hr2 & Hc2).
    2,3: intros [= <- <-]; apply Hpost; split; [lia|]; split;
      [eapply agree_below_trans; eauto|discriminate].
    rewrite (Hc2 c2 eq_refl). rewrite bind_run.
    destruct (decorate host node (next wl) w2) as [o3 w3] eqn:Hdec.
    destruct (decorate_post _ _ _ _ _ _ Hr2 Hdec) as (-> & Hn3 & Ht3 & Hf3 & Hp3).
    unfold ret. intros [= <- <-]. apply Hpost.
    split; [lia|]. split.
    { eapply agree_below_trans; [exact Hf1|].
      eapply agree_below_trans; [exact Hf2|exact Hf3]. }
    intros c [= <-]. repeat split; auto. unfold wl in *; simpl in *; lia.
Qed.


(** * Rejections *)

Lemma traced_createImage url : traced (createImage host url).
Proof.
  unfold createImage. destruct (decoder host url) as [e|].
  - intros w out w'. step. intros [= <- <-].
    exists [CreateImage url (Some e)]. split; reflexivity.
  - intros w out w'. step. unfold alloc. intros [= <- <-].
    exists [CreateImage url None]. split; reflexivity.
Qed.

Lemma traced_getBlobFromURL url opts : traced (getBlobFromURL host url opts).
Proof.
  unfold getBlobFromURL. destruct (network host url opts) as [e|data].
  - intros w out w'. step. intros [= <- <-].
    exists [GetBlob url (Some e)]. split; reflexivity.
  - intros w out w'. step. intros [= <- <-].
    exists [GetBlob url None]. split; reflexivity.
Qed.

Lemma traced_shallowClone n : traced (shallowClone n).
Proof.
  unfold shallowClone. apply traced_bind; [apply traced_read|].
  intros nd. apply traced_alloc.
Qed.

Lemma traced_cloneSingleNode n opts : traced (cloneSingleNode host n opts).
Proof.
  unfold cloneSingleNode, cloneCanvasElement, cloneVideoElement.
  apply traced_bind; [apply traced_read|]. intros nd.
  repeat apply traced_if.
  - apply traced_bind; [apply traced_read|]. intros nd'.
    apply traced_if; [apply traced_shallowClone|apply traced_createImage].
  - apply traced_bind; [apply traced_read|]. intros nd'.
    apply traced_bind; [apply traced_ret|]. intros url.
    apply traced_bind; [apply traced_getBlobFromURL|]. intros data.
    apply traced_bind; [apply traced_read|]. intros nd''.
    apply traced_bind; [apply traced_ret|]. intros dataURL.
    apply traced_createImage.
  - apply traced_shallowClone.
Qed.

Lemma traced_decorate n c : traced (decorate host n c).
Proof.
  unfold decorate. apply traced_bind; [apply traced_read|]. intros nd.
  apply traced_if; [apply traced_ret|].
  apply traced_bind; [apply traced_ret|]. intros _.
  apply traced_bind; [apply (traced_attrs_only c), attrs_only_cloneCSSStyle|]. intros _.
  apply traced_bind.
  { apply traced_quiet. intros w. eexists tt, _. split; [reflexivity|].
    apply (pseudo_trace _ pseudo_ok). }
  intros _. apply traced_bind; [apply traced_cloneInputValue|].
  intros _. apply traced_ret.
Qed.

Lemma traced_cloneNode fuel : forall node opts r, traced (cloneNode host fuel node opts r).
Proof.
  induction fuel as [|fuel IH]; intros node opts r; cbn [cloneNode].
  - apply traced_pending.
  - apply traced_bind; [apply traced_log_visit|]. intros _.
    apply traced_bind; [apply traced_current|]. intros w0.
    apply traced_if; [apply traced_ret|].
    apply traced_bind; [apply traced_cloneSingleNode|]. intros c1.
    apply traced_bind; [apply traced_cloneChildren; intros; apply IH|]. intros c2.
    apply traced_bind; [apply traced_decorate|]. intros c3.
    apply traced_ret.
Qed.


(** * Settling *)

Lemma effectiveChildren_agree k w w' n :
  agree_below k w w' -> n < k ->
  match shadowRoot (getNode w n) with Some sr => sr < k | None => True end ->
  effectiveChildren w' n = effectiveChildren w n.
Proof.
  intros Hf Hn Hsr. unfold effectiveChildren.
  rewrite (getNode_agree w w' n) by (apply Hf, Hn).
  destruct (isSlotElement (getNode w n)), (assignedNodes (getNode w n));
    try reflexivity;
    destruct (shadowRoot (getNode w n)) as [sr|]; try reflexivity;
    rewrite (getNode_agree w w' sr) by (apply Hf, Hsr); reflexivity.
Qed.

Lemma within_depth_agree k w w' :
  agree_below k w w' ->
  forall d n, within_depth w k d n = true -> within_depth w' k d n = true.
Proof.
  intros Hf. induction d as [|d IH]; intros n; simpl; [discriminate|].
  rewrite !andb_true_iff. intros [[Hn Hsr] Hch].
  apply bool_decide_eq_true in Hn.
  assert (Hsr' : match shadowRoot (getNode w n) with Some sr => sr < k | None => True end).
  { destruct (shadowRoot (getNode w n)); [|exact I]. apply bool_decide_eq_true in Hsr. exact Hsr. }
  rewrite (effectiveChildren_agree k w w' n Hf Hn Hsr').
  rewrite (getNode_agree w w' n) by (apply Hf, Hn).
  repeat split.
  - apply bool_decide_eq_true. exact Hn.
  - exact Hsr.
  - rewrite forallb_forall in *. intros x Hx. apply IH, Hch, Hx.
Qed.

Lemma cloneSingleNode_settles node opts w w' :
  cloneSingleNode host node opts w <> (Pending, w').
Proof.
  unfold cloneSingleNode, cloneCanvasElement, cloneVideoElement,
    shallowClone, createImage, getBlobFromURL.
  step.
  destruct (instanceof (interface (getNode w node)) HTMLCanvasElement).
  - repeat step. destruct (String.eqb _ _).
    + repeat step. unfold alloc. discriminate.
    + destruct (decoder host _); repeat step; unfold alloc; discriminate.
  - destruct (_ && _).
    + repeat step. destruct (network host _ opts) as [e|data].
      * repeat step. discriminate.
      * repeat step. destruct (decoder host _); repeat step; unfold alloc; discriminate.
    + repeat step. unfold alloc. discriminate.
Qed.

Lemma ready_weaken k k' c w : k <= k' -> ready k' c w -> ready k c w.
Proof.
  intros Hk (H1 & H2 & H3 & H4). repeat split; auto; [lia|].
  eapply Forall_impl; [exact H4|]. simpl. intros; lia.
Qed.

Lemma cloneEach_settles rec opts k d c :
  (forall child w out w', rec child opts None w = (out, w') -> node_post w out w') ->
  (forall child w w', k <= next w -> within_depth w k d child = true ->
     rec child opts None w <> (Pending, w')) ->
  forall children w w',
    ready k c w ->
    forallb (within_depth w k d) children = true ->
    cloneEach rec c opts children w <> (Pending, w').
Proof.
  intros Hpost Hsettles.
  induction children as [|child rest IH]; intros w w' Hready Hdepth.
  - simpl. discriminate.
  - simpl in Hdepth. apply andb_true_iff in Hdepth as [Hd Hrest].
    pose proof Hready as (Hk & Hc & Hp & Hch).
    simpl. rewrite bind_run.
    destruct (rec child opts None w) as [[r|e|] w1] eqn:Hrun.
    2: discriminate.
    2: { exfalso. eapply Hsettles; [|exact Hd|exact Hrun]. lia. }
    destruct (Hpost _ _ _ _ Hrun) as (Hn & Hf & Hc').
    pose proof (ready_agree k c w w1 Hready Hn Hf) as Hready1.
    assert (Hfk : agree_below k w w1) by (eapply agree_below_weaken; [|exact Hf]; lia).
    rewrite bind_run. destruct r as [c'|].
    + destruct (Hc' c' eq_refl) as (Hlo & Hhi & Hpar).
      rewrite (appendChild_detached c c' w1 Hpar).
      apply IH.
      * apply ready_appended; auto; lia.
      * rewrite forallb_forall in *. intros x Hx.
        apply (within_depth_agree k w).
        { eapply agree_below_trans; [exact Hfk|]. apply appended_agree; lia. }
        apply Hrest, Hx.
    + unfold ret at 1. apply IH; [exact Hready1|].
      rewrite forallb_forall in *. intros x Hx.
      apply (within_depth_agree k w _ Hfk), Hrest, Hx.
Qed.

Lemma cloneNode_settles fuel : forall d node opts r k w w',
  d <= fuel -> k <= next w ->
  within_depth w k d node = true ->
  cloneNode host fuel node opts r w <> (Pending, w').
Proof.
  induction fuel as [|fuel IH]; intros d node opts r k w w' Hd Hk Hdepth.
  - assert (d = 0) as -> by lia. discriminate.
  - destruct d as [|d]; [discriminate|].
    simpl in Hdepth. rewrite !andb_true_iff in Hdepth.
    destruct Hdepth as [[Hn Hsr] Hch]. apply bool_decide_eq_true in Hn.
    cbn [cloneNode]. step. step.
    set (wl := logged (Visit node) w).
    destruct (_ && _); [discriminate|].
    rewrite bind_run.
    destruct (cloneSingleNode host node opts wl) as [[c1|e|] w1] eqn:Hsingle.
    2: discriminate.
    2: { exfalso. eapply cloneSingleNode_settles. exact Hsingle. }
    destruct (cloneSingleNode_post _ _ _ _ _ Hsingle) as (Hn1 & Hf1 & Hc1).
    destruct (Hc1 c1 eq_refl) as (-> & Hnext1 & Hpar1 & Hch1).
    assert (Hready1 : ready (next wl) (next wl) w1).
    { unfold ready. rewrite Hpar1, Hch1. repeat split; auto. lia. }
    assert (Hfk : agree_below k w w1).
    { eapply agree_below_weaken; [|exact Hf1]. exact Hk. }
    assert (Hsr' : match shadowRoot (getNode w node) with Some sr => sr < k | None => True end).
    { destruct (shadowRoot (getNode w node)); [|exact I].
      apply bool_decide_eq_true in Hsr. exact Hsr. }
    rewrite bind_run, cloneChildren_run.
    destruct (skipsChildren w1 node).
    + rewrite bind_run.
      destruct (decorate host node (next wl) w1) as [o3 w3] eqn:Hdec.
      destruct (decorate_post _ _ _ _ _ _ Hready1 Hdec) as (-> & _).
      discriminate.
    + rewrite bind_run.
      destruct (cloneEach _ _ _ _ w1) as [[[]|e|] w2] eqn:Heach.
      2: discriminate.
      2: { exfalso.
           eapply (cloneEach_settles (cloneNode host fuel) opts k d (next wl));
             [| | |  |exact Heach].
           - intros child w0 out w0'. apply cloneNode_post.
           - intros child w0 w0' Hk0 Hd0.
             apply (IH d child opts None k w0 w0'); [lia|exact Hk0|exact Hd0].
           - eapply ready_weaken; [|exact Hready1]. exact Hk.
           - rewrite (effectiveChildren_agree k w w1 node Hfk Hn Hsr').
             rewrite forallb_forall in *. intros x Hx.
             apply (within_depth_agree k w _ Hfk), Hch, Hx. }
      destruct (cloneEach_post _ opts _ _
                  (fun ch => cloneNode_post fuel ch opts None) _ _ _ _ Hready1 Heach)
        as (Hn2 & Hf2 & Hr2 & _).
      unfold ret at 1. cbv beta iota. rewrite bind_run.
      destruct (decorate host node (next wl) w2) as [o3 w3] eqn:Hdec.
      destruct (decorate_post _ _ _ _ _ _ Hr2 Hdec) as (-> & _).
      discriminate.
Qed.


(** * The child loop, seen from [cloneChildren] *)

Lemma cloneChildren_seq fuel native cloned opts w r w' :
  cloned < next w ->
  parentNode (getNode w cloned) = None ->
  skipsChildren w native = false ->
  cloneChildren (cloneNode host fuel) native cloned opts w = (Resolved r, w') ->
  r = cloned /\
  exists results,
    seq_clone (cloneNode host fuel) cloned opts (effectiveChildren w native) w results w' /\
    childNodes (getNode w' cloned) = (childNodes (getNode w cloned) ++ omap id results)%list.
Proof.
  intros Hc Hp Hskip. rewrite cloneChildren_run, Hskip, bind_run.
  destruct (cloneEach _ _ _ _ w) as [[[]|e|] w1] eqn:Heach; try discriminate.
  unfold ret. intros [= <- <-]. split; [reflexivity|].
  assert (Hready : ready 0 cloned w).
  { repeat split; auto; [lia|]. apply Forall_forall. intros; lia. }
  destruct (cloneEach_post _ opts _ _
              (fun ch => cloneNode_post fuel ch opts None) _ _ _ _ Hready Heach)
    as (_ & _ & _ & Hseq).
  apply Hseq. reflexivity.
Qed.

Lemma appendChild_quiet c c' w out w' :
  appendChild c c' w = (out, w') -> out = Resolved tt /\ trace w' = trace w.
Proof.
  unfold appendChild. step.
  destruct (parentNode (getNode w c')); repeat step; intros [= <- <-]; auto.
Qed.

Lemma cloneNode_visits_first fuel node opts r w out w' :
  cloneNode host (S fuel) node opts r w = (out, w') ->
  exists evs, trace w' = (trace w ++ Visit node :: evs)%list /\
    rejections evs = settled_rejections out.
Proof.
  intros Hrun.
  destruct (traced_cloneNode (S fuel) node opts r _ _ _ Hrun) as (evs0 & Ht0 & Hr0).
  revert Hrun. cbn [cloneNode]. rewrite bind_run. unfold log at 1, modify at 1.
  cbv beta iota. intros Hrun.
  match type of Hrun with ?m ?wl = _ => assert (Ht : traced m) end.
  { apply traced_bind; [apply traced_current|]. intros w0.
    apply traced_if; [apply traced_ret|].
    apply traced_bind; [apply traced_cloneSingleNode|]. intros c1.
    apply traced_bind;
      [apply traced_cloneChildren; intros; apply traced_cloneNode|]. intros c2.
    apply traced_bind; [apply traced_decorate|]. intros c3.
    apply traced_ret. }
  destruct (Ht _ _ _ Hrun) as (evs & Hevs & Hr).
  exists evs. split; [|exact Hr].
  rewrite Hevs. simpl. rewrite <- app_assoc. reflexivity.
Qed.

(** The events of the children come one child after the other, each
    child's events opening with its visit. *)
Lemma seq_clone_trace fuel cloned opts children w results w' :
  seq_clone (cloneNode host fuel) cloned opts children w results w' ->
  exists segs, trace w' = (trace w ++ concat segs)%list /\
    Forall2 (fun child seg => exists rest, seg = Visit child :: rest) children segs.
Proof.
  induction 1 as [w|child rest w r w1 w2 rs w3 Hrun Happ Hseq IH].
  - exists []. simpl. rewrite app_nil_r. split; [reflexivity|constructor].
  - destruct IH as (segs & Ht & Hall).
    destruct fuel as [|fuel']; [discriminate|].
    destruct (cloneNode_visits_first _ _ _ _ _ _ _ Hrun) as (evs & Hevs & _).
    assert (Ht2 : trace w2 = trace w1).
    { destruct r as [c|].
      - apply appendChild_quiet in Happ. apply Happ.
      - inversion Happ. reflexivity. }
    exists ((Visit child :: evs) :: segs). split.
    + rewrite Ht, Ht2, Hevs. simpl. rewrite <- app_assoc. reflexivity.
    + constructor; [eauto|exact Hall].
Qed.

End Proofs.

(** * Facts about [cloneNode] that several statements share *)

Lemma cloneNode_root_not_null host fuel node opts w w' :
  cloneNode host fuel node opts (Some true) w <> (Resolved None, w').
Proof.
  destruct fuel as [|fuel]; [discriminate|].
  cbn [cloneNode]. step. step. cbn [not_root negb andb].
  intros H.
  apply bind_inv in H as [(c1 & w1 & _ & H)|[(e & _ & He)|(_ & He)]]; try discriminate.
  apply bind_inv in H as [(c2 & w2 & _ & H)|[(e & _ & He)|(_ & He)]]; try discriminate.
  apply bind_inv in H as [(c3 & w3 & _ & H)|[(e & _ & He)|(_ & He)]]; try discriminate.
Qed.

Lemma cloneNode_pruned host fuel node opts isRoot f w :
  isRoot <> Some true ->
  filter opts = Some f ->
  f (heap w) node = false ->
  cloneNode host (S fuel) node opts isRoot w = (Resolved None, logged (Visit node) w).
Proof.
  intros Hr Hf Hv. cbn [cloneNode]. step. step.
  cbn [heap logged]. rewrite Hf, Hv.
  destruct isRoot as [[|]|]; [congruence| |]; reflexivity.
Qed.

Lemma sample_pseudo_ok : pseudo_contract (clonePseudoElements Sample.host).
Proof.
  split; cbn [clonePseudoElements Sample.host]; intros n c w; unfold Sample.pseudo;
    destruct (bool_decide (tagName (getNode w n) = Some "P"));
    try reflexivity; try (cbn [next write]; lia).
  - intros id Hid Hne. cbn [heap write next].
    rewrite !lookup_insert_ne by lia. reflexivity.
  - intros Hc. rewrite getNode_write_eq. cbn [parentNode with_childNodes].
    unfold getNode at 1. cbn [heap write next].
    rewrite lookup_insert_ne by lia. rewrite lookup_insert_eq. reflexivity.
  - intros ch Hc. rewrite getNode_write_eq. cbn [childNodes with_childNodes].
    unfold getNode at 1. cbn [heap write next].
    rewrite lookup_insert_ne by lia. rewrite lookup_insert_eq.
    cbn [default childNodes with_attributes].
    intros Hin. apply elem_of_app in Hin as [Hin|Hin]; [left; exact Hin|].
    apply list_elem_of_singleton in Hin. right. lia.
  - intros ch _ Hin. left. exact Hin.
Qed.

Lemma getNode_alloc nd (w : World) :
  getNode {| heap := <[next w := nd]> (heap w); next := S (next w); trace := trace w |}
          (next w) = nd.
Proof. unfold getNode. simpl. rewrite lookup_insert_eq. reflexivity. Qed.

Lemma createImage_decoded host url w :
  decoder host url = None ->
  exists w', createImage host url w = (Resolved (next w), w') /\
    trace w' = (trace w ++ [CreateImage url None])%list /\
    interface (getNode w' (next w)) = HTMLImageElement /\
    src (getNode w' (next w)) = url /\
    childNodes (getNode w' (next w)) = [].
Proof.
  intros Hd. unfold createImage. rewrite Hd. step. unfold alloc. cbn [next heap trace].
  eexists. split; [reflexivity|].
  rewrite (getNode_alloc _ (logged (CreateImage url None) w)). simpl. auto.
Qed.

Lemma createImage_rejected host url e w :
  decoder host url = Some e ->
  createImage host url w = (Rejected e, logged (CreateImage url (Some e)) w).
Proof. intros Hd. unfold createImage. rewrite Hd. reflexivity. Qed.

Lemma shallowClone_run node w :
  exists w', shallowClone node w = (Resolved (next w), w') /\
    trace w' = trace w /\ next w' = S (next w) /\
    interface (getNode w' (next w)) = interface (getNode w node) /\
    tagName (getNode w' (next w)) = tagName (getNode w node) /\
    attributes (getNode w' (next w)) = attributes (getNode w node) /\
    childNodes (getNode w' (next w)) = [] /\
    parentNode (getNode w' (next w)) = None.
Proof.
  unfold shallowClone. step. unfold alloc.
  eexists. split; [reflexivity|]. rewrite getNode_alloc. simpl. auto 10.
Qed.

Lemma assoc_get_set name v l : assoc_get name (assoc_set name v l) = Some v.
Proof.
  induction l as [|[k v0] l IH]; simpl.
  - rewrite String.eqb_refl. reflexivity.
  - destruct (String.eqb k name) eqn:Hk; simpl; rewrite Hk; auto.
Qed.

Lemma omap_id_nil {A} (l : list (option A)) : omap id l = [] -> Forall (eq None) l.
Proof.
  induction l as [|[a|] l IH]; simpl; intros H.
  - constructor.
  - discriminate.
  - constructor; auto.
Qed.

(** * The stages of one call *)

Lemma cloneInputValue_input host n c w :
  instanceof (interface (getNode w n)) HTMLInputElement = true ->
  cloneInputValue host n c w
  = (Resolved tt,
     write c (with_attributes
                (assoc_set "value" (value (getNode w n)) (attributes (getNode w c)))
                (getNode w c)) w).
Proof.
  intros Hi. unfold cloneInputValue. step_read.
  assert (Hne : instanceof (interface (getNode w n)) HTMLTextAreaElement = false).
  { apply bool_decide_eq_true in Hi. rewrite Hi. reflexivity. }
  rewrite Hne. step. step. rewrite Hi. reflexivity.
Qed.

Lemma cloneInputValue_textarea host n c w :
  n < next w -> c < next w ->
  instanceof (interface (getNode w n)) HTMLTextAreaElement = true ->
  exists w1,
    cloneInputValue host n c w
    = (Resolved tt, reparsed c (parseText host (value (getNode w n))) w1) /\
    next w1 = next w.
Proof.
  intros Hn Hc Ht. unfold cloneInputValue. step_read. rewrite Ht.
  destruct (set_innerHTML_run (parseText host) c (value (getNode w n)) w)
    as (w1 & Hrun & Hn1 & _ & _ & _ & Hi1).
  rewrite bind_run, Hrun. step_read.
  set (text := parseText host (value (getNode w n))).
  assert (Hi : interface (getNode (reparsed c text w1) n) = interface (getNode w n)).
  { destruct (decide (n = c)) as [->|Hne].
    - rewrite reparsed_node by lia. cbn [interface with_childNodes]. apply Hi1.
    - rewrite (getNode_agree w1) by (apply reparsed_other; [lia|exact Hne]). apply Hi1. }
  rewrite Hi.
  assert (Hne : instanceof (interface (getNode w n)) HTMLInputElement = false).
  { apply bool_decide_eq_true in Ht. rewrite Ht. reflexivity. }
  rewrite Hne. exists w1. split; [reflexivity|exact Hn1].
Qed.

Lemma cloneSingleNode_plain host node opts w :
  instanceof (interface (getNode w node)) HTMLCanvasElement = false ->
  instanceof (interface (getNode w node)) HTMLVideoElement = false ->
  cloneSingleNode host node opts w = shallowClone node w.
Proof.
  intros Hc Hv. unfold cloneSingleNode. step_read. rewrite Hc, Hv. reflexivity.
Qed.

Lemma decorate_element host n c w :
  instanceof (interface (getNode w c)) Element = true ->
  exists w1,
    cloneCSSStyle host n c w = (Resolved tt, w1) /\ attrs_step c w w1 /\
    decorate host n c w
    = (cloneInputValue host n c ;;; ret c) (clonePseudoElements host n c w1).
Proof.
  intros He. destruct (attrs_only_cloneCSSStyle host n c w) as ([] & w1 & Hrun & Hstep).
  exists w1. split; [exact Hrun|]. split; [exact Hstep|].
  unfold decorate. step_read. rewrite He. cbn [negb]. step.
  rewrite bind_run, Hrun. step. reflexivity.
Qed.

Lemma decorate_other host n c w :
  instanceof (interface (getNode w c)) Element = false ->
  decorate host n c w = (Resolved c, w).
Proof. intros He. unfold decorate. step_read. rewrite He. reflexivity. Qed.

Lemma cloneChildren_returns rec n c opts w r w' :
  cloneChildren rec n c opts w = (Resolved r, w') -> r = c.
Proof.
  rewrite cloneChildren_run. destruct (skipsChildren w n).
  - intros [= <- <-]. reflexivity.
  - rewrite bind_run. destruct (cloneEach _ _ _ _ w) as [[[]|e|] w1]; try discriminate.
    intros [= <- <-]. reflexivity.
Qed.

Lemma cloneInputValue_resolves host n c w out w' :
  cloneInputValue host n c w = (out, w') -> out = Resolved tt.
Proof.
  unfold cloneInputValue. step_read.
  assert (Hstage : exists w1,
    (if instanceof (interface (getNode w n)) HTMLTextAreaElement
     then set_innerHTML (parseText host) c (value (getNode w n)) else ret tt) w
    = (Resolved tt, w1)).
  { destruct (instanceof _ HTMLTextAreaElement).
    - destruct (set_innerHTML_run (parseText host) c (value (getNode w n)) w)
        as (w1 & Hrun & _).
      eexists. exact Hrun.
    - exists w. reflexivity. }
  destruct Hstage as (w1 & Hrun). rewrite bind_run, Hrun. step_read.
  destruct (instanceof _ HTMLInputElement).
  - unfold setAttribute, update, modify. intros [= <- <-]. reflexivity.
  - unfold ret. intros [= <- <-]. reflexivity.
Qed.

Lemma decorate_returns host n c w out w' :
  decorate host n c w = (out, w') -> out = Resolved c.
Proof.
  destruct (instanceof (interface (getNode w c)) Element) eqn:He.
  - destruct (decorate_element host n c w He) as (w1 & _ & _ & ->).
    rewrite bind_run.
    destruct (cloneInputValue host n c _) as [o w3] eqn:Hrun.
    apply cloneInputValue_resolves in Hrun as ->.
    unfold ret. intros [= <- <-]. reflexivity.
  - rewrite (decorate_other host n c w He). intros [= <- <-]. reflexivity.
Qed.

(** A call that resolves to a clone went through the three stages. *)
Lemma cloneNode_stages host fuel node opts isRoot w c w' :
  cloneNode host (S fuel) node opts isRoot w = (Resolved (Some c), w') ->
  exists w1 w2,
    cloneSingleNode host node opts (logged (Visit node) w) = (Resolved c, w1) /\
    cloneChildren (cloneNode host fuel) node c opts w1 = (Resolved c, w2) /\
    decorate host node c w2 = (Resolved c, w').
Proof.
  cbn [cloneNode]. step. step. destruct (_ && _); [discriminate|].
  intros H.
  apply bind_inv in H as [(c1 & w1 & H1 & H)|[(e & _ & He)|(_ & He)]]; try discriminate.
  apply bind_inv in H as [(c2 & w2 & H2 & H)|[(e & _ & He)|(_ & He)]]; try discriminate.
  apply bind_inv in H as [(c3 & w3 & H3 & H)|[(e & _ & He)|(_ & He)]]; try discriminate.
  unfold ret in H. injection H as <- <-.
  pose proof (decorate_returns _ _ _ _ _ _ H3) as [= ->].
  pose proof (cloneChildren_returns _ _ _ _ _ _ _ H2) as ->.
  exists w1, w2. auto.
Qed.

(** * C1: the filter prunes whole subtrees, but never the root *)



(** * C2: children are cloned one after the other, in source order *)

(** C2.  When [cloneChildren] walks the children of a node, on a
    document of bounded depth, the walk settles; and when it resolves
    it has taken the children one after the other in source order:
    each child's whole recursive clone ran from the world the append of
    the child before it left, so the events of the children follow one
    another in the trace, each opening with the visit of its child.  A
    child whose clone is [null] adds nothing and its siblings are
    appended all the same: the clone's children are the ones it had,
    followed by the clones that are not [null], in source order. *)
Theorem children_are_cloned_one_by_one
    (host : Host) (fuel d : nat) (k nativeNode clonedNode : NodeId) (opts : Options)
    (w : World) (out : Outcome NodeId) (w' : World) :
  pseudo_contract (clonePseudoElements host) ->
  ready k clonedNode w ->
  skipsChildren w nativeNode = false ->
  forallb (within_depth w k d) (effectiveChildren w nativeNode) = true ->
  d <= fuel ->
  cloneChildren (cloneNode host fuel) nativeNode clonedNode opts w = (out, w') ->
  out <> Pending /\
  forall r, out = Resolved r ->
    r = clonedNode /\
    exists results,
      seq_clone (cloneNode host fuel) clonedNode opts
        (effectiveChildren w nativeNode) w results w' /\
      childNodes (getNode w' clonedNode)
        = (childNodes (getNode w clonedNode) ++ omap id results)%list /\
      exists segs,
        trace w' = (trace w ++ concat segs)%list /\
        Forall2 (fun child seg => exists rest, seg = Visit child :: rest)
          (effectiveChildren w nativeNode) segs.
Proof.
  intros Hp Hready Hskip Hdepth Hd Hrun. split.
  - intros ->. revert Hrun. rewrite cloneChildren_run, Hskip, bind_run.
    destruct (cloneEach _ _ _ _ w) as [[[]|e|] w1] eqn:Heach; try discriminate.
    exfalso.
    eapply (cloneEach_settles (cloneNode host fuel) opts k d clonedNode);
      [| |exact Hready|exact Hdepth|exact Heach].
    + intros child w0 out0 w0'. apply (cloneNode_post host Hp).
    + intros child w0 w0' Hk0 Hd0.
      apply (cloneNode_settles host Hp fuel d child opts None k w0 w0');
        [exact Hd|exact Hk0|exact Hd0].
  - intros r ->.
    destruct Hready as (_ & Hc & Hpar & _).
    destruct (cloneChildren_seq host Hp _ _ _ _ _ _ _ Hc Hpar Hskip Hrun)
      as (-> & results & Hseq & Hch).
    split; [reflexivity|]. exists results. repeat split; auto.
    eapply seq_clone_trace; eauto.
Qed.

Lemma children_are_cloned_one_by_one_witness :
  let w := Sample.page_with_root_clone in
  let run := cloneChildren (cloneNode Sample.host 2) 0 9 Sample.no_script w in
  childNodes (getNode run.2 9) = [10; 12; 13; 14; 15; 16; 18] /\
  run.1 <> Pending /\
  forall r, run.1 = Resolved r ->
    r = 9 /\
    exists results,
      seq_clone (cloneNode Sample.host 2) 9 Sample.no_script
        (effectiveChildren w 0) w results run.2 /\
      childNodes (getNode run.2 9) = (childNodes (getNode w 9) ++ omap id results)%list /\
      exists segs,
        trace run.2 = (trace w ++ concat segs)%list /\
        Forall2 (fun child seg => exists rest, seg = Visit child :: rest)
          (effectiveChildren w 0) segs.
Proof.
  split; [vm_compute; reflexivity|].
  apply (children_are_cloned_one_by_one
           Sample.host 2 1 9 0 9 Sample.no_script Sample.page_with_root_clone).
  - exact sample_pseudo_ok.
  - split; [lia|]. split; [vm_compute; lia|]. split; [reflexivity|].
    vm_compute. constructor.
  - reflexivity.
  - vm_compute. reflexivity.
  - lia.
  - apply surjective_pairing.
Defined.

(** * C3: the clone of a canvas *)

(** C3.  For a canvas-kind node whose export is the empty-canvas
    sentinel, the type-specific clone is the shallow structural clone:
    a new node of the canvas's own interface and attributes, with no
    children, made without any image being decoded.  For any other
    export the clone is what decoding that data URL gives: a new
    image-kind node whose source is the data URL when the decode
    succeeds, and the decode's rejection when it fails. *)
Theorem canvas_clone
    (host : Host) (node : NodeId) (opts : Options) (w : World) :
  instanceof (interface (getNode w node)) HTMLCanvasElement = true ->
  let dataURL := toDataURL (getNode w node) in
  (dataURL = "data:," ->
     exists w', cloneSingleNode host node opts w = (Resolved (next w), w') /\
       trace w' = trace w /\
       childNodes (getNode w' (next w)) = [] /\
       interface (getNode w' (next w)) = interface (getNode w node) /\
       attributes (getNode w' (next w)) = attributes (getNode w node) /\
       instanceof (interface (getNode w' (next w))) HTMLImageElement = false) /\
  (dataURL <> "data:," ->
     cloneSingleNode host node opts w = createImage host dataURL w /\
     (decoder host dataURL = None ->
        exists w', cloneSingleNode host node opts w = (Resolved (next w), w') /\
          interface (getNode w' (next w)) = HTMLImageElement /\
          src (getNode w' (next w)) = dataURL) /\
     (forall e, decoder host dataURL = Some e ->
        cloneSingleNode host node opts w
        = (Rejected e, logged (CreateImage dataURL (Some e)) w))).
Proof.
  intros Hcanvas dataURL.
  assert (Hrun : cloneSingleNode host node opts w =
                 if String.eqb dataURL "data:," then shallowClone node w
                 else createImage host dataURL w).
  { unfold cloneSingleNode. step. rewrite Hcanvas.
    unfold cloneCanvasElement. step. fold dataURL.
    destruct (String.eqb dataURL "data:,"); reflexivity. }
  split.
  - intros Hd. rewrite Hrun, Hd. cbn [String.eqb Ascii.eqb Bool.eqb].
    destruct (shallowClone_run node w) as (w' & Hs & Ht & _ & Hi & _ & Ha & Hc & _).
    exists w'. rewrite Hs. repeat split; auto.
    rewrite Hi. apply bool_decide_eq_true in Hcanvas. rewrite Hcanvas. reflexivity.
  - intros Hd. apply String.eqb_neq in Hd. rewrite Hrun, Hd.
    split; [reflexivity|]. split.
    + intros Hdec. destruct (createImage_decoded host dataURL w Hdec)
        as (w' & Hc & _ & Hi & Hs & _).
      exists w'. auto.
    + intros e He. apply createImage_rejected. exact He.
Qed.

Lemma canvas_clone_witness :
  (exists w', cloneSingleNode Sample.host 5 Sample.keep_all Sample.page
              = (Resolved 9, w') /\
     trace w' = trace Sample.page /\
     childNodes (getNode w' 9) = [] /\
     interface (getNode w' 9) = interface (getNode Sample.page 5) /\
     attributes (getNode w' 9) = attributes (getNode Sample.page 5) /\
     instanceof (interface (getNode w' 9)) HTMLImageElement = false) /\
  (exists w', cloneSingleNode Sample.host 4 Sample.keep_all Sample.page
              = (Resolved 9, w') /\
     interface (getNode w' 9) = HTMLImageElement /\
     src (getNode w' 9) = "data:image/png;base64,AAAA").
Proof.
  split.
  - apply (canvas_clone Sample.host 5 Sample.keep_all Sample.page); reflexivity.
  - apply (canvas_clone Sample.host 4 Sample.keep_all Sample.page).
    + reflexivity.
    + vm_compute. discriminate.
    + reflexivity.
Defined.

(** * C4: the clone of a video *)

(** C4.  For a video-kind node with a non-empty poster the
    type-specific clone is the decode of the data URL built from the
    fetched poster blob: a rejected fetch is the outcome; otherwise the
    MIME type of the data URL is the one declared for the poster when
    there is one (and it is not empty), else the content type the
    fetch reported, and a successful decode gives a new image-kind node
    whose source is that data URL.  A video-kind node with an empty
    poster gets the shallow structural clone. *)
Theorem video_poster_clone
    (host : Host) (node : NodeId) (opts : Options) (w : World) :
  instanceof (interface (getNode w node)) HTMLVideoElement = true ->
  let url := poster (getNode w node) in
  (url <> "" ->
     (forall e, network host url opts = inl e ->
        cloneSingleNode host node opts w = (Rejected e, logged (GetBlob url (Some e)) w)) /\
     (forall data, network host url opts = inr data ->
        exists mime,
          (forall m, getMimeType host url = Some m -> m <> "" -> mime = m) /\
          (getMimeType host url = None \/ getMimeType host url = Some "" ->
             mime = contentType data) /\
          let dataURL := makeDataUrl host (blob data) mime in
          cloneSingleNode host node opts w
            = createImage host dataURL (logged (GetBlob url None) w) /\
          (decoder host dataURL = None ->
             exists w', cloneSingleNode host node opts w = (Resolved (next w), w') /\
               interface (getNode w' (next w)) = HTMLImageElement /\
               src (getNode w' (next w)) = dataURL))) /\
  (url = "" ->
     cloneSingleNode host node opts w = shallowClone node w).
Proof.
  intros Hvideo url.
  assert (Hnot : instanceof (interface (getNode w node)) HTMLCanvasElement = false).
  { apply bool_decide_eq_true in Hvideo. rewrite Hvideo. reflexivity. }
  assert (Hrun : cloneSingleNode host node opts w =
                 if Js.truthy url then cloneVideoElement host node opts w
                 else shallowClone node w).
  { unfold cloneSingleNode. step. rewrite Hnot, Hvideo. fold url.
    destruct (Js.truthy url); reflexivity. }
  split.
  - intros Hurl. apply String.eqb_neq in Hurl.
    unfold Js.truthy in Hrun. rewrite Hurl in Hrun. simpl in Hrun.
    split.
    + intros e He. rewrite Hrun. unfold cloneVideoElement, getBlobFromURL.
      step. step. fold url. rewrite bind_run, He. reflexivity.
    + intros data Hdata.
      exists (Js.or_else (getMimeType host url) (contentType data)).
      split; [|split].
      * intros m Hm Hne. rewrite Hm. simpl. unfold Js.truthy.
        apply String.eqb_neq in Hne. rewrite Hne. reflexivity.
      * intros [Hm|Hm]; rewrite Hm; reflexivity.
      * assert (Hv : cloneSingleNode host node opts w =
                     createImage host
                       (makeDataUrl host (blob data)
                          (Js.or_else (getMimeType host url) (contentType data)))
                       (logged (GetBlob url None) w)).
        { rewrite Hrun. unfold cloneVideoElement, getBlobFromURL.
          step. step. fold url. rewrite bind_run, Hdata. step. step. step.
          reflexivity. }
        cbv zeta. split; [exact Hv|].
        intros Hdec. rewrite Hv.
        destruct (createImage_decoded host _ (logged (GetBlob url None) w) Hdec)
          as (w' & Hc & _ & Hi & Hs & _).
        exists w'. auto.
  - intros Hurl. rewrite Hrun. unfold Js.truthy. rewrite Hurl. reflexivity.
Qed.

Lemma video_poster_clone_witness :
  (exists w', cloneSingleNode Sample.host 6 Sample.keep_all Sample.page
              = (Resolved 9, w') /\
     interface (getNode w' 9) = HTMLImageElement /\
     src (getNode w' 9) = "data:image/jpeg;base64,QUJD") /\
  cloneSingleNode Sample.host 8 Sample.keep_all Sample.page = shallowClone 8 Sample.page.
Proof.
  split.
  - destruct (video_poster_clone Sample.host 6 Sample.keep_all Sample.page eq_refl)
      as [Hposter _].
    destruct Hposter as [_ Hfetched]; [vm_compute; discriminate|].
    destruct (Hfetched {| blob := "QUJD"; contentType := "image/png" |} eq_refl)
      as (mime & Hdeclared & _ & _ & Hdecoded).
    rewrite (Hdeclared "image/jpeg") in Hdecoded;
      [|vm_compute; reflexivity|discriminate].
    apply Hdecoded. reflexivity.
  - apply (video_poster_clone Sample.host 8 Sample.keep_all Sample.page); reflexivity.
Defined.

(** * C5: the width patch on paragraphs *)

(** C5 does not hold as stated: for a paragraph whose computed width
    is 10.95px the fractional part exceeds 0.9, one is added, and the
    ceiling of 11.95 is 12, so the inline width written on the clone is
    12px and not 11px.  Nor is the rule one of decimal fractions: for
    10.9px, whose fractional part does not exceed 0.9, the code adds
    one as well and writes 12px, because it compares binary64
    numbers. *)
Lemma width_10_95px_is_patched_to_12px :
  let w := (shallowClone 1 Sample.page).2 in
  let w9 :=
    write 1 (Sample.child_of 0
               (Sample.with_computedStyle (Sample.plain "10.9px")
                  (Sample.element HTMLElement "P"))) w in
  tagName (getNode w 1) = Some "P" /\
  getPropertyValue (computedStyle (getNode w 1)) "width" = "10.95px" /\
  inline_style (cloneCSSStyle Sample.host 1 9 w).2 9
  = Some "width: 10.95px;;width:12px;" /\
  inline_style (cloneCSSStyle Sample.host 1 9 w).2 9
  <> Some "width: 10.95px;;width:11px;" /\
  getPropertyValue (computedStyle (getNode w9 1)) "width" = "10.9px" /\
  inline_style (cloneCSSStyle Sample.host 1 9 w9).2 9
  = Some "width: 10.9px;;width:12px;".
Proof.
  vm_compute. repeat split; discriminate.
Qed.

(** What the patch computes on texts in which the host or a style
    sheet can give a number: an exponent part is read, and a number
    too large for 21 digits is written with an exponent. *)
Lemma width_texts_read_and_written :
  let patched width :=
    let floatWidth := Number.parseFloat width in
    Number.toString
      (Number.ceil
         (if Number.gtb (Number.mod1 floatWidth) (Number.ofDecimal false 9 1)
          then Number.add floatWidth (Number.ofZ 1)
          else floatWidth)) in
  List.map patched
    ["1.78px"; "10.0px"; "0.9px"; "-0.5px"; "1.5e3px"; "2.5e+06px"; ".5px";
     "9007199254740993.5px"; "1152921504606846976.0px"; "1.5e21px"; "1.5e400px";
     "x.5px"]
  = ["2"; "10"; "1"; "0"; "1500"; "2500000"; "1";
     "9007199254740994"; "1152921504606847000"; "1.5e+21"; "Infinity";
     "NaN"].
Proof. vm_compute. reflexivity. Qed.

(** C5, amended.  On a paragraph whose computed width contains a
    point, the width patch appends to the clone's inline style the
    declaration of an integral width: the ceiling of the width parsed
    as a binary64 number, after one was added to it if its binary64
    remainder modulo 1 is greater than the binary64 number nearest to
    0.9.  On 10.95px that is 12px; on 10.9px it is 12px as well, the
    remainder of the binary64 number nearest to 10.9 being greater
    than the binary64 number nearest to 0.9; on 10.5px it is 11px, on
    10.89px it is 11px. *)
Theorem text_wrap_width_patch
    (nativeNode clonedNode : NodeId) (w : World) (width : string) :
  tagName (getNode w nativeNode) = Some "P" ->
  getPropertyValue (computedStyle (getNode w nativeNode)) "width" = width ->
  Js.includes width "." = true ->
  let floatWidth := Number.parseFloat width in
  let biased :=
    if Number.gtb (Number.mod1 floatWidth) (Number.ofDecimal false 9 1)
    then Number.add floatWidth (Number.ofZ 1)
    else floatWidth in
  let patched (px : string) :=
    exists w', fixTextWrap nativeNode clonedNode w = (Resolved tt, w') /\
      inline_style w' clonedNode
      = Some (Js.template (inline_style w clonedNode) ++ ";width:" ++ px ++ "px;") in
  patched (Number.toString (Number.ceil biased)) /\
  (width = "10.95px" -> patched "12") /\
  (width = "10.9px" -> patched "12") /\
  (width = "10.5px" -> patched "11") /\
  (width = "10.89px" -> patched "11").
Proof.
  intros Htag Hwidth Hdot floatWidth biased patched.
  assert (Hgen : patched (Number.toString (Number.ceil biased))).
  { unfold patched, fixTextWrap. step. rewrite Htag.
    rewrite bool_decide_eq_true_2 by reflexivity.
    rewrite Hwidth, Hdot. fold floatWidth. fold biased.
    unfold getAttribute. step. step. unfold setAttribute, update, modify.
    eexists. split; [reflexivity|].
    unfold inline_style. rewrite getNode_write_eq. simpl.
    rewrite assoc_get_set. reflexivity. }
  split; [exact Hgen|].
  split; [|split; [|split]].
  - intros Hw.
    assert (E : Number.toString (Number.ceil biased) = "12")
      by (unfold biased, floatWidth; rewrite Hw; vm_compute; reflexivity).
    rewrite <- E. exact Hgen.
  - intros Hw.
    assert (E : Number.toString (Number.ceil biased) = "12")
      by (unfold biased, floatWidth; rewrite Hw; vm_compute; reflexivity).
    rewrite <- E. exact Hgen.
  - intros Hw.
    assert (E : Number.toString (Number.ceil biased) = "11")
      by (unfold biased, floatWidth; rewrite Hw; vm_compute; reflexivity).
    rewrite <- E. exact Hgen.
  - intros Hw.
    assert (E : Number.toString (Number.ceil biased) = "11")
      by (unfold biased, floatWidth; rewrite Hw; vm_compute; reflexivity).
    rewrite <- E. exact Hgen.
Qed.

Lemma text_wrap_width_patch_witness :
  let paragraph width :=
    write 1 (Sample.child_of 0
               (Sample.with_computedStyle (Sample.plain width)
                  (Sample.element HTMLElement "P")))
      (shallowClone 1 Sample.page).2 in
  let patched w px :=
    exists w', fixTextWrap 1 9 w = (Resolved tt, w') /\
      inline_style w' 9
      = Some (Js.template (inline_style w 9) ++ ";width:" ++ px ++ "px;") in
  patched (paragraph "10.95px") "12" /\
  patched (paragraph "10.9px") "12" /\
  patched (paragraph "10.5px") "11" /\
  patched (paragraph "10.89px") "11".
Proof.
  intros paragraph patched. split; [|split; [|split]].
  - destruct (text_wrap_width_patch 1 9 (paragraph "10.95px") "10.95px")
      as (_ & H & _); [reflexivity..|].
    apply H. reflexivity.
  - destruct (text_wrap_width_patch 1 9 (paragraph "10.9px") "10.9px")
      as (_ & _ & H & _); [reflexivity..|].
    apply H. reflexivity.
  - destruct (text_wrap_width_patch 1 9 (paragraph "10.5px") "10.5px")
      as (_ & _ & _ & H & _); [reflexivity..|].
    apply H. reflexivity.
  - destruct (text_wrap_width_patch 1 9 (paragraph "10.89px") "10.89px")
      as (_ & _ & _ & _ & H); [reflexivity..|].
    apply H. reflexivity.
Defined.

(** * C6: the list of children that is walked, and when it is skipped *)

(** C6 does not hold as stated: the root of the sample page has eight
    children and is not a video, yet with a filter that rejects every
    child [cloneChildren] returns the clone with nothing appended. *)
Lemma unchanged_clone_with_children_present :
  let w := Sample.page_with_root_clone in
  returns_unchanged (cloneNode Sample.host 2) 0 9 Sample.prune_all w /\
  ~ (effectiveChildren w 0 = [] \/
     instanceof (interface (getNode w 0)) HTMLVideoElement = true).
Proof.
  split.
  - eexists. split; vm_compute; reflexivity.
  - intros [He|Hv]; [vm_compute in He|vm_compute in Hv]; discriminate.
Qed.

(** C6, amended.  [cloneChildren] walks one list: the assigned nodes
    when the node is a slot that has them, else the children of the
    shadow root when one is attached, else the node's own children.
    When that list is empty or the node is video-kind it returns the
    clone at once, the world untouched.  Otherwise the children are
    visited, the first of them first, and the clone comes back with no
    child appended only if every child's clone resolved to [null]. *)
Theorem effective_children_and_skip
    (host : Host) (fuel : nat) (nativeNode clonedNode : NodeId) (opts : Options)
    (w : World) :
  pseudo_contract (clonePseudoElements host) ->
  clonedNode < next w ->
  parentNode (getNode w clonedNode) = None ->
  let nd := getNode w nativeNode in
  let children := effectiveChildren w nativeNode in
  (forall assigned, isSlotElement nd = true -> assignedNodes nd = Some assigned ->
     children = assigned) /\
  (forall sr, isSlotElement nd = false \/ assignedNodes nd = None ->
     shadowRoot nd = Some sr -> children = childNodes (getNode w sr)) /\
  (isSlotElement nd = false \/ assignedNodes nd = None ->
     shadowRoot nd = None -> children = childNodes nd) /\
  (children = [] \/ instanceof (interface nd) HTMLVideoElement = true ->
     cloneChildren (cloneNode host fuel) nativeNode clonedNode opts w
     = (Resolved clonedNode, w)) /\
  (forall r w',
     children <> [] -> instanceof (interface nd) HTMLVideoElement = false ->
     cloneChildren (cloneNode host fuel) nativeNode clonedNode opts w = (Resolved r, w') ->
     (exists first rest evs,
        children = first :: rest /\ trace w' = (trace w ++ Visit first :: evs)%list) /\
     (childNodes (getNode w' clonedNode) = childNodes (getNode w clonedNode) ->
      exists results,
        seq_clone (cloneNode host fuel) clonedNode opts children w results w' /\
        Forall (eq None) results)).
Proof.
  intros Hp Hc Hpar nd children.
  assert (Hskip : skipsChildren w nativeNode =
                  (length children =? 0)%nat || instanceof (interface nd) HTMLVideoElement)
    by reflexivity.
  split; [|split; [|split; [|split]]].
  - intros assigned Hslot Ha. unfold children, effectiveChildren. fold nd.
    rewrite Hslot, Ha. reflexivity.
  - intros sr Hno Hsr. unfold children, effectiveChildren. fold nd. rewrite Hsr.
    destruct Hno as [H|H]; rewrite H; [reflexivity|].
    destruct (isSlotElement nd); reflexivity.
  - intros Hno Hsr. unfold children, effectiveChildren. fold nd. rewrite Hsr.
    destruct Hno as [H|H]; rewrite H; [reflexivity|].
    destruct (isSlotElement nd); reflexivity.
  - intros Hcase. rewrite cloneChildren_run, Hskip.
    destruct Hcase as [H|H]; rewrite H; [reflexivity|].
    rewrite orb_true_r. reflexivity.
  - intros r w' Hne Hv Hrun.
    assert (Hs : skipsChildren w nativeNode = false).
    { rewrite Hskip, Hv. destruct children; [congruence|reflexivity]. }
    destruct (cloneChildren_seq host Hp _ _ _ _ _ _ _ Hc Hpar Hs Hrun)
      as (-> & results & Hseq & Hch).
    fold children in Hseq. split.
    + destruct (seq_clone_trace host Hp _ _ _ _ _ _ _ Hseq) as (segs & Ht & Hall).
      destruct Hall as [|first seg rest segs' (evs & ->) Hrest]; [congruence|].
      exists first, rest, (evs ++ concat segs')%list. split; [reflexivity|].
      rewrite Ht. reflexivity.
    + intros Hsame. exists results. split; [exact Hseq|].
      apply omap_id_nil. rewrite Hsame in Hch.
      rewrite <- (app_nil_r (childNodes (getNode w clonedNode))) in Hch at 1.
      apply app_inv_head in Hch. auto.
Qed.

Lemma effective_children_and_skip_witness :
  let w := Sample.page_with_root_clone in
  effectiveChildren Sample.widget 3 = [1] /\
  effectiveChildren Sample.widget 0 = childNodes (getNode Sample.widget 2) /\
  effectiveChildren w 0 = childNodes (getNode w 0) /\
  cloneChildren (cloneNode Sample.host 2) 8 9 Sample.keep_all w = (Resolved 9, w) /\
  (exists results,
     seq_clone (cloneNode Sample.host 2) 9 Sample.prune_all (effectiveChildren w 0) w
       results (cloneChildren (cloneNode Sample.host 2) 0 9 Sample.prune_all w).2 /\
     Forall (eq None) results).
Proof.
  intros w.
  destruct (effective_children_and_skip
              Sample.host 2 3 0 Sample.keep_all Sample.widget sample_pseudo_ok)
    as (Hslot & _); [vm_compute; lia|reflexivity|].
  destruct (effective_children_and_skip
              Sample.host 2 0 0 Sample.keep_all Sample.widget sample_pseudo_ok)
    as (_ & Hshadow & _); [vm_compute; lia|reflexivity|].
  destruct (effective_children_and_skip
              Sample.host 2 0 9 Sample.prune_all w sample_pseudo_ok)
    as (_ & _ & Hown & _ & Hwalk); [vm_compute; lia|reflexivity|].
  destruct (effective_children_and_skip
              Sample.host 2 8 9 Sample.keep_all w sample_pseudo_ok)
    as (_ & _ & _ & Hskip & _); [vm_compute; lia|reflexivity|].
  split; [apply Hslot; reflexivity|].
  split; [apply Hshadow; [left|]; reflexivity|].
  split; [apply Hown; [left|]; reflexivity|].
  split.
  - apply Hskip. left. reflexivity.
  - destruct (Hwalk 9 (cloneChildren (cloneNode Sample.host 2) 0 9 Sample.prune_all w).2)
      as (_ & Hnull).
    + vm_compute. discriminate.
    + reflexivity.
    + vm_compute. reflexivity.
    + apply Hnull. vm_compute. reflexivity.
Defined.

(** * C7: live form values *)

(** C7.  The claim is what the code is after and the code misses it:
    on a textarea the live value is assigned to [innerHTML], so the
    host reads it as markup.  For the value [1 &lt; 2] the clone ends
    up with one text node whose data is [1 < 2]: the text content of
    the clone is not the live value. *)
Theorem textarea_value_is_parsed_as_markup :
  let w := (shallowClone 0 Sample.snippet).2 in
  let run := cloneInputValue Sample.host 0 1 w in
  instanceof (interface (getNode w 0)) HTMLTextAreaElement = true /\
  value (getNode w 0) = "1 &lt; 2" /\
  run.1 = Resolved tt /\
  exists text,
    childNodes (getNode run.2 1) = [text] /\
    interface (getNode run.2 text) = Text /\
    nodeValue (getNode run.2 text) = "1 < 2" /\
    nodeValue (getNode run.2 text) <> value (getNode w 0).
Proof.
  cbv zeta. split; [reflexivity|]. split; [reflexivity|].
  split; [vm_compute; reflexivity|].
  exists 2. vm_compute. repeat split. discriminate.
Qed.

(** * C8: rejections abort the whole call *)

(** C8.  Whatever the tree, a rejection of [getBlobFromURL] or
    [createImage] anywhere in the recursion is the outcome of the whole
    call, with the same reason: the call then resolves to no node at
    all, and a call that does not reject has seen no rejection. *)
Theorem rejection_propagates_unmodified
    (host : Host) (fuel : nat) (node : NodeId) (opts : Options)
    (isRoot : option bool) (w : World) (out : Outcome (option NodeId)) (w' : World) :
  pseudo_contract (clonePseudoElements host) ->
  cloneNode host fuel node opts isRoot w = (out, w') ->
  exists evs, trace w' = (trace w ++ evs)%list /\
    (forall e, e ∈ rejections evs -> out = Rejected e) /\
    (forall e, out = Rejected e -> rejections evs = [e]).
Proof.
  intros Hp Hrun.
  destruct (traced_cloneNode host Hp fuel node opts isRoot _ _ _ Hrun) as (evs & Ht & Hr).
  exists evs. split; [exact Ht|]. split.
  - intros e He. rewrite Hr in He. destruct out as [a|e'|]; simpl in He.
    + apply elem_of_nil in He. contradiction.
    + apply list_elem_of_singleton in He. congruence.
    + apply elem_of_nil in He. contradiction.
  - intros e ->. exact Hr.
Qed.

Lemma rejection_propagates_unmodified_witness :
  let run := cloneNode Sample.host 3 0 Sample.keep_all (Some true) Sample.broken_page in
  run.1 = Rejected "fetch failed" /\
  exists evs,
    trace run.2 = (trace Sample.broken_page ++ evs)%list /\
    (forall e, e ∈ rejections evs -> run.1 = Rejected e) /\
    (forall e, run.1 = Rejected e -> rejections evs = [e]).
Proof.
  split; [vm_compute; reflexivity|].
  apply (rejection_propagates_unmodified
           Sample.host 3 0 Sample.keep_all (Some true) Sample.broken_page).
  - exact sample_pseudo_ok.
  - apply surjective_pairing.
Defined.

(** * C9: the source tree is read only *)

(** C9.  Whatever the input and however the call settles, every node
    that existed when [cloneNode] was called is afterwards exactly as
    it was: the run writes only to nodes it has created itself. *)
Theorem source_tree_is_never_mutated
    (host : Host) (fuel : nat) (node : NodeId) (opts : Options)
    (isRoot : option bool) (w : World) (out : Outcome (option NodeId)) (w' : World) :
  pseudo_contract (clonePseudoElements host) ->
  cloneNode host fuel node opts isRoot w = (out, w') ->
  forall id, id < next w -> heap w' !! id = heap w !! id.
Proof.
  intros Hp Hrun.
  destruct (cloneNode_post host Hp _ _ _ _ _ _ _ Hrun) as (_ & Hf & _).
  exact Hf.
Qed.

Lemma source_tree_is_never_mutated_witness :
  Forall
    (fun id =>
       heap (cloneNode Sample.host 3 0 Sample.no_script (Some true) Sample.page).2 !! id
       = heap Sample.page !! id)
    (seq 0 (next Sample.page)).
Proof.
  apply Forall_forall. intros id Hid. apply elem_of_seq in Hid.
  apply (source_tree_is_never_mutated
           Sample.host 3 0 Sample.no_script (Some true) Sample.page
           (cloneNode Sample.host 3 0 Sample.no_script (Some true) Sample.page).1).
  - exact sample_pseudo_ok.
  - apply surjective_pairing.
  - lia.
Defined.

(** * C10: an omitted isRoot *)

(** C10.  With the isRoot argument left out the node counts as
    non-root: if the filter rejects it the call resolves to [null],
    also at the top of the recursion.  Only with isRoot passed as true
    does the call never resolve to [null]. *)
Theorem omitted_isRoot_is_not_root
    (host : Host) (fuel : nat) (node : NodeId) (opts : Options)
    (f : gmap NodeId DomNode -> NodeId -> bool) (w : World) :
  filter opts = Some f ->
  f (heap w) node = false ->
  cloneNode host (S fuel) node opts None w = (Resolved None, logged (Visit node) w) /\
  cloneNode host (S fuel) node opts (Some false) w = (Resolved None, logged (Visit node) w) /\
  forall w', cloneNode host (S fuel) node opts (Some true) w <> (Resolved None, w').
Proof.
  intros Hf Hv. repeat split.
  - apply cloneNode_pruned with (f := f); [discriminate|assumption..].
  - apply cloneNode_pruned with (f := f); [discriminate|assumption..].
  - intros w'. apply cloneNode_root_not_null.
Qed.

Lemma omitted_isRoot_is_not_root_witness :
  cloneNode Sample.host 3 0 Sample.prune_all None Sample.page =
    (Resolved None, logged (Visit 0) Sample.page) /\
  cloneNode Sample.host 3 0 Sample.prune_all (Some false) Sample.page =
    (Resolved None, logged (Visit 0) Sample.page) /\
  forall w', cloneNode Sample.host 3 0 Sample.prune_all (Some true) Sample.page
             <> (Resolved None, w').
Proof.
  apply (omitted_isRoot_is_not_root Sample.host 2 0 Sample.prune_all (fun _ _ => false)).
  - reflexivity.
  - reflexivity.
Defined.

(** * Further properties of the pipeline *)

(** ** The type-specific clone allocates one node, or none *)

Lemma createImage_cases host url w out w' :
  createImage host url w = (out, w') ->
  (exists e, out = Rejected e /\ w' = logged (CreateImage url (Some e)) w) \/
  (out = Resolved (next w) /\ next w' = S (next w) /\
   trace w' = (trace w ++ [CreateImage url None])%list /\
   agree_below (next w) w w' /\
   parentNode (getNode w' (next w)) = None /\
   childNodes (getNode w' (next w)) = [] /\
   interface (getNode w' (next w)) = HTMLImageElement /\
   src (getNode w' (next w)) = url).
Proof.
  unfold createImage. destruct (decoder host url) as [e|].
  - step. intros [= <- <-]. left. eauto.
  - step. unfold alloc. intros [= <- <-]. right.
    rewrite (getNode_alloc _ (logged (CreateImage url None) w)).
    repeat split; auto.
    intros id Hid. cbn [heap logged]. rewrite lookup_insert_ne by (cbn [next logged]; lia).
    reflexivity.
Qed.

Lemma shallowClone_cases node w out w' :
  shallowClone node w = (out, w') ->
  out = Resolved (next w) /\ next w' = S (next w) /\ trace w' = trace w /\
  agree_below (next w) w w' /\
  parentNode (getNode w' (next w)) = None /\
  childNodes (getNode w' (next w)) = [] /\
  interface (getNode w' (next w)) = interface (getNode w node) /\
  tagName (getNode w' (next w)) = tagName (getNode w node) /\
  attributes (getNode w' (next w)) = attributes (getNode w node).
Proof.
  unfold shallowClone. step. unfold alloc. intros [= <- <-].
  rewrite getNode_alloc. repeat split; auto.
  intros id Hid. cbn [heap]. rewrite lookup_insert_ne by lia. reflexivity.
Qed.

(** X1.  Whatever the kind of the node, [cloneSingleNode] settles; when it
    resolves it has created exactly one node, the one it returns, which
    is detached and has no children, and every node that existed is
    as it was; when it rejects it has created no node at all. *)
Theorem type_specific_clone_is_one_new_node
    (host : Host) (node : NodeId) (opts : Options) (w : World)
    (out : Outcome NodeId) (w' : World) :
  cloneSingleNode host node opts w = (out, w') ->
  out <> Pending /\
  (forall c, out = Resolved c ->
     c = next w /\ next w' = S (next w) /\ agree_below (next w) w w' /\
     parentNode (getNode w' c) = None /\ childNodes (getNode w' c) = []) /\
  (forall e, out = Rejected e -> heap w' = heap w /\ next w' = next w).
Proof.
  intros Hrun. split; [|split].
  - intros ->. eapply cloneSingleNode_settles. exact Hrun.
  - intros c ->. destruct (cloneSingleNode_post _ _ _ _ _ _ Hrun) as (_ & Hf & Hc).
    destruct (Hc c eq_refl) as (-> & Hn & Hp & Hch). auto.
  - intros e ->. revert Hrun.
    unfold cloneSingleNode, cloneCanvasElement, cloneVideoElement, getBlobFromURL.
    step.
    destruct (instanceof (interface (getNode w node)) HTMLCanvasElement).
    + step. destruct (String.eqb _ _).
      * intros H. apply shallowClone_cases in H as (H & _). discriminate.
      * intros H. apply createImage_cases in H as [(e' & _ & ->)|(H & _)];
          [auto|discriminate].
    + destruct (_ && _).
      * repeat step. destruct (network host _ opts) as [e'|data].
        -- repeat step. intros [= <- <-]. auto.
        -- repeat step. intros H.
           apply createImage_cases in H as [(e' & _ & ->)|(H & _)];
             [auto|discriminate].
      * intros H. apply shallowClone_cases in H as (H & _). discriminate.
Qed.

Lemma type_specific_clone_is_one_new_node_witness :
  let ok := cloneSingleNode Sample.host 4 Sample.keep_all Sample.page in
  let ko := cloneSingleNode Sample.host 1 Sample.keep_all Sample.broken_page in
  (ok.1 <> Pending /\
   (forall c, ok.1 = Resolved c ->
      c = next Sample.page /\ next ok.2 = S (next Sample.page) /\
      agree_below (next Sample.page) Sample.page ok.2 /\
      parentNode (getNode ok.2 c) = None /\ childNodes (getNode ok.2 c) = []) /\
   (forall e, ok.1 = Rejected e ->
      heap ok.2 = heap Sample.page /\ next ok.2 = next Sample.page)) /\
  ko.1 = Rejected "fetch failed" /\
  (ko.1 <> Pending /\
   (forall c, ko.1 = Resolved c ->
      c = next Sample.broken_page /\ next ko.2 = S (next Sample.broken_page) /\
      agree_below (next Sample.broken_page) Sample.broken_page ko.2 /\
      parentNode (getNode ko.2 c) = None /\ childNodes (getNode ko.2 c) = []) /\
   (forall e, ko.1 = Rejected e ->
      heap ko.2 = heap Sample.broken_page /\ next ko.2 = next Sample.broken_page)).
Proof.
  split; [|split].
  - apply (type_specific_clone_is_one_new_node Sample.host 4 Sample.keep_all Sample.page).
    apply surjective_pairing.
  - vm_compute. reflexivity.
  - apply (type_specific_clone_is_one_new_node
             Sample.host 1 Sample.keep_all Sample.broken_page).
    apply surjective_pairing.
Defined.

(** ** Without a filter nothing is pruned *)

Lemma cloneNode_not_null host fuel node opts isRoot w w' :
  (not_root isRoot &&
   match filter opts with
   | Some f => negb (f (heap w) node)
   | None => false
   end) = false ->
  cloneNode host fuel node opts isRoot w <> (Resolved None, w').
Proof.
  intros Hkeep. destruct fuel as [|fuel]; [discriminate|].
  cbn [cloneNode]. step. step. cbn [heap logged]. rewrite Hkeep.
  intros H.
  apply bind_inv in H as [(c1 & w1 & _ & H)|[(e & _ & He)|(_ & He)]]; try discriminate.
  apply bind_inv in H as [(c2 & w2 & _ & H)|[(e & _ & He)|(_ & He)]]; try discriminate.
  apply bind_inv in H as [(c3 & w3 & _ & H)|[(e & _ & He)|(_ & He)]]; try discriminate.
Qed.

(** X2.  When the options hold no filter, no call of [cloneNode] resolves
    to [null], whatever isRoot says: on a document of bounded depth the
    call resolves to a new detached node, or rejects with the
    rejection of a collaborator. *)
Theorem without_filter_nothing_is_pruned
    (host : Host) (fuel d : nat) (node : NodeId) (opts : Options)
    (isRoot : option bool) (w : World) (out : Outcome (option NodeId)) (w' : World) :
  pseudo_contract (clonePseudoElements host) ->
  filter opts = None ->
  within_depth w (next w) d node = true ->
  d <= fuel ->
  cloneNode host fuel node opts isRoot w = (out, w') ->
  (exists c, out = Resolved (Some c) /\ next w <= c /\ c < next w' /\
             parentNode (getNode w' c) = None) \/
  (exists e evs, out = Rejected e /\ trace w' = (trace w ++ evs)%list /\
                 rejections evs = [e]).
Proof.
  intros Hp Hnone Hdepth Hd Hrun.
  destruct out as [[c|]|e|].
  - left. exists c. split; [reflexivity|].
    destruct (cloneNode_post host Hp _ _ _ _ _ _ _ Hrun) as (_ & _ & Hc).
    apply Hc. reflexivity.
  - exfalso. eapply cloneNode_not_null; [|exact Hrun].
    rewrite Hnone. apply andb_false_r.
  - right. destruct (traced_cloneNode host Hp _ _ _ _ _ _ _ Hrun) as (evs & Ht & Hr).
    exists e, evs. auto.
  - exfalso. eapply (cloneNode_settles host Hp); [exact Hd| |exact Hdepth|exact Hrun].
    lia.
Qed.

Lemma without_filter_nothing_is_pruned_witness :
  let run := cloneNode Sample.host 3 0 Sample.keep_all None Sample.page in
  (exists c, run.1 = Resolved (Some c) /\ next Sample.page <= c /\ c < next run.2 /\
             parentNode (getNode run.2 c) = None) \/
  (exists e evs, run.1 = Rejected e /\ trace run.2 = (trace Sample.page ++ evs)%list /\
                 rejections evs = [e]).
Proof.
  apply (without_filter_nothing_is_pruned
           Sample.host 3 2 0 Sample.keep_all None Sample.page).
  - exact sample_pseudo_ok.
  - reflexivity.
  - vm_compute. reflexivity.
  - lia.
  - apply surjective_pairing.
Defined.

(** ** A rejection stops the walk over the children *)

Lemma cloneEach_rejected rec c opts e : forall children w w',
  cloneEach rec c opts children w = (Rejected e, w') ->
  exists before child after results w1,
    children = (before ++ child :: after)%list /\
    seq_clone rec c opts before w results w1 /\
    rec child opts None w1 = (Rejected e, w').
Proof.
  induction children as [|child rest IH]; intros w w'; simpl.
  - discriminate.
  - rewrite bind_run.
    destruct (rec child opts None w) as [[r|e'|] w1] eqn:Hrun.
    + rewrite bind_run.
      destruct (match r with Some c0 => appendChild c c0 | None => ret tt end w1)
        as [o2 w2] eqn:Happ.
      assert (Ho : o2 = Resolved tt).
      { destruct r as [c0|].
        - apply appendChild_quiet in Happ. apply Happ.
        - inversion Happ. reflexivity. }
      subst o2. intros Hrest.
      destruct (IH _ _ Hrest) as (before & ch & after & rs & wm & -> & Hseq & Hrej).
      exists (child :: before), ch, after, (r :: rs), wm.
      split; [reflexivity|]. split; [|exact Hrej].
      econstructor; eauto.
    + intros [= <- <-].
      exists [], child, rest, [], w. split; [reflexivity|].
      split; [constructor|exact Hrun].
    + discriminate.
Qed.

(** X3.  When [cloneChildren] rejects, the rejection is that of the clone
    of one child: the children before it were cloned and appended one
    after the other, and the world is left as the failing call left
    it, so that no later sibling is ever started. *)
Theorem rejection_stops_the_walk
    (host : Host) (fuel : nat) (nativeNode clonedNode : NodeId) (opts : Options)
    (w : World) (e : Reason) (w' : World) :
  cloneChildren (cloneNode host fuel) nativeNode clonedNode opts w = (Rejected e, w') ->
  exists before child after results w1,
    effectiveChildren w nativeNode = (before ++ child :: after)%list /\
    seq_clone (cloneNode host fuel) clonedNode opts before w results w1 /\
    cloneNode host fuel child opts None w1 = (Rejected e, w').
Proof.
  rewrite cloneChildren_run. destruct (skipsChildren w nativeNode); [discriminate|].
  rewrite bind_run.
  destruct (cloneEach _ _ _ _ w) as [[[]|e'|] w1] eqn:Heach; try discriminate.
  intros [= <- <-]. eapply cloneEach_rejected. exact Heach.
Qed.

(** ** What the walk does to the clone and to nobody else *)

Lemma with_childNodes_twice l l' nd :
  with_childNodes l (with_childNodes l' nd) = with_childNodes l nd.
Proof. reflexivity. Qed.

Lemma with_childNodes_same nd : with_childNodes (childNodes nd) nd = nd.
Proof. destruct nd; reflexivity. Qed.

Lemma appended_child c c' w :
  c <> c' ->
  getNode (appended c c' w) c' = with_parentNode (Some c) (getNode w c').
Proof.
  intros H. unfold appended. rewrite getNode_write_ne by congruence.
  apply getNode_write_eq.
Qed.

Lemma cloneEach_family rec opts k c :
  (forall child w out w', rec child opts None w = (out, w') -> node_post w out w') ->
  forall children w out w',
    ready k c w ->
    cloneEach rec c opts children w = (out, w') ->
    (forall id, id < next w -> id <> c -> heap w' !! id = heap w !! id) /\
    (exists l, getNode w' c = with_childNodes l (getNode w c)) /\
    (out = Resolved tt ->
     exists rs, seq_clone rec c opts children w rs w' /\
       childNodes (getNode w' c) = (childNodes (getNode w c) ++ omap id rs)%list /\
       Forall (fun ch => parentNode (getNode w' ch) = Some c /\ next w <= ch)
         (omap id rs)).
Proof.
  intros Hrec. induction children as [|child rest IH]; intros w out w' Hready.
  - simpl. unfold ret. intros [= <- <-]. split; [auto|]. split.
    + exists (childNodes (getNode w c)). symmetry. apply with_childNodes_same.
    + intros _. exists []. split; [constructor|]. simpl. rewrite app_nil_r. auto.
  - simpl. rewrite bind_run.
    pose proof Hready as (Hk & Hc & Hp & Hch).
    destruct (rec child opts None w) as [[r|e|] w1] eqn:Hrun;
      destruct (Hrec _ _ _ _ Hrun) as (Hn & Hf & Hc');
      assert (Hsame : getNode w1 c = getNode w c) by (apply getNode_agree, Hf, Hc).
    2,3: intros [= <- <-]; split; [intros id Hid _; apply Hf, Hid|]; split;
      [exists (childNodes (getNode w c)); rewrite Hsame; symmetry;
       apply with_childNodes_same|discriminate].
    pose proof (ready_agree k c w w1 Hready Hn Hf) as Hready1.
    rewrite bind_run. destruct r as [c'|].
    + destruct (Hc' c' eq_refl) as (Hlo & Hhi & Hpar).
      rewrite (appendChild_detached c c' w1 Hpar).
      assert (Hne : c <> c') by lia.
      assert (Hready2 : ready k c (appended c c' w1))
        by (apply ready_appended; auto; lia).
      intros Hrest.
      destruct (IH _ _ _ Hready2 Hrest) as (Ho2 & (l & Hl) & Hseq).
      rewrite appended_next in Ho2.
      split; [|split].
      * intros id Hid Hidc. rewrite Ho2 by lia.
        rewrite appended_other by lia. apply Hf, Hid.
      * exists l. rewrite Hl, appended_parent by exact Hne.
        rewrite with_childNodes_twice, Hsame. reflexivity.
      * intros Hout. destruct (Hseq Hout) as (rs & Hs & Hchildren & Hparents).
        exists (Some c' :: rs). split; [|split].
        -- econstructor; [exact Hrun| |exact Hs].
           apply appendChild_detached. exact Hpar.
        -- rewrite Hchildren, appended_parent by exact Hne. simpl.
           rewrite Hsame, <- app_assoc. reflexivity.
        -- simpl. constructor.
           ++ split; [|exact Hlo].
              rewrite (getNode_agree (appended c c' w1) w' c') by (apply Ho2; lia).
              rewrite appended_child by exact Hne. reflexivity.
           ++ eapply Forall_impl; [exact Hparents|].
              intros ch [H1 H2]. rewrite appended_next in H2. split; [exact H1|lia].
    + unfold ret at 1. intros Hrest.
      destruct (IH _ _ _ Hready1 Hrest) as (Ho2 & (l & Hl) & Hseq).
      split; [|split].
      * intros id Hid Hidc. rewrite Ho2 by lia. apply Hf, Hid.
      * exists l. rewrite Hl, Hsame. reflexivity.
      * intros Hout. destruct (Hseq Hout) as (rs & Hs & Hchildren & Hparents).
        exists (None :: rs). split; [|split].
        -- econstructor; [exact Hrun|reflexivity|exact Hs].
        -- rewrite Hchildren, Hsame. reflexivity.
        -- simpl. eapply Forall_impl; [exact Hparents|].
           intros ch [H1 H2]. split; [exact H1|lia].
Qed.

(** X4.  When [cloneChildren] resolves, every node it has appended is a
    new node whose parent is the clone; the clone itself has changed
    in its list of children only, and every other node that existed
    before the walk is as it was. *)
Theorem appended_children_belong_to_the_clone
    (host : Host) (fuel : nat) (nativeNode clonedNode : NodeId) (opts : Options)
    (w : World) (r : NodeId) (w' : World) :
  pseudo_contract (clonePseudoElements host) ->
  clonedNode < next w ->
  parentNode (getNode w clonedNode) = None ->
  cloneChildren (cloneNode host fuel) nativeNode clonedNode opts w = (Resolved r, w') ->
  (exists appended,
     childNodes (getNode w' clonedNode)
       = (childNodes (getNode w clonedNode) ++ appended)%list /\
     Forall (fun ch => parentNode (getNode w' ch) = Some clonedNode /\ next w <= ch)
       appended) /\
  getNode w' clonedNode
    = with_childNodes (childNodes (getNode w' clonedNode)) (getNode w clonedNode) /\
  (forall id, id < next w -> id <> clonedNode -> heap w' !! id = heap w !! id).
Proof.
  intros Hp Hc Hpar. rewrite cloneChildren_run.
  destruct (skipsChildren w nativeNode).
  - intros [= <- <-]. split; [|split].
    + exists []. rewrite app_nil_r. split; [reflexivity|constructor].
    + symmetry. apply with_childNodes_same.
    + auto.
  - rewrite bind_run.
    destruct (cloneEach _ _ _ _ w) as [[[]|e|] w1] eqn:Heach; try discriminate.
    unfold ret. intros [= <- <-].
    assert (Hready : ready 0 clonedNode w).
    { repeat split; auto; [lia|]. apply Forall_forall. intros; lia. }
    destruct (cloneEach_family _ opts _ _
                (fun ch => cloneNode_post host Hp fuel ch opts None) _ _ _ _ Hready Heach)
      as (Hothers & (l & Hl) & Hres).
    destruct (Hres eq_refl) as (rs & _ & Hch & Hparents).
    split; [|split].
    + exists (omap id rs). auto.
    + rewrite Hl. reflexivity.
    + exact Hothers.
Qed.

Lemma appended_children_belong_to_the_clone_witness :
  let w := Sample.page_with_root_clone in
  let run := cloneChildren (cloneNode Sample.host 2) 0 9 Sample.no_script w in
  (exists appended,
     childNodes (getNode run.2 9) = (childNodes (getNode w 9) ++ appended)%list /\
     Forall (fun ch => parentNode (getNode run.2 ch) = Some 9 /\ next w <= ch)
       appended) /\
  getNode run.2 9 = with_childNodes (childNodes (getNode run.2 9)) (getNode w 9) /\
  (forall id, id < next w -> id <> 9 -> heap run.2 !! id = heap w !! id).
Proof.
  apply (appended_children_belong_to_the_clone
           Sample.host 2 0 9 Sample.no_script Sample.page_with_root_clone 9).
  - exact sample_pseudo_ok.
  - vm_compute. lia.
  - reflexivity.
  - vm_compute. reflexivity.
Defined.

(** ** The style snapshot *)

Lemma append_empty_r s : s ++ "" = s.
Proof.
  induction s as [|a s IH]; [reflexivity|].
  change (String a (s ++ "") = String a s). rewrite IH. reflexivity.
Qed.

Lemma assoc_get_set_ne name name' v l :
  name' <> name -> assoc_get name' (assoc_set name v l) = assoc_get name' l.
Proof.
  intros Hne. induction l as [|[k v0] l IH]; simpl.
  - destruct (String.eqb name name') eqn:E; [|reflexivity].
    apply String.eqb_eq in E. congruence.
  - destruct (String.eqb k name) eqn:Ek; simpl.
    + apply String.eqb_eq in Ek. subst k.
      destruct (String.eqb name name') eqn:E; [|reflexivity].
      apply String.eqb_eq in E. congruence.
    + destruct (String.eqb k name'); [reflexivity|exact IH].
Qed.

Lemma style_step_refl c w : style_step c w w.
Proof.
  repeat split; auto. exists (attributes (getNode w c)). split; [|auto].
  symmetry. apply with_attributes_id.
Qed.

Lemma style_step_trans c w1 w2 w3 :
  style_step c w1 w2 -> style_step c w2 w3 -> style_step c w1 w3.
Proof.
  intros (Hn1 & Ht1 & Hf1 & l1 & Hl1 & Ha1) (Hn2 & Ht2 & Hf2 & l2 & Hl2 & Ha2).
  repeat split; try congruence.
  - intros id Hid. rewrite Hf2, Hf1; auto.
  - exists l2. split.
    + rewrite Hl2, Hl1. reflexivity.
    + intros name Hname. rewrite Ha2 by exact Hname. rewrite Hl1. simpl.
      apply Ha1, Hname.
Qed.

Lemma style_only_ret {A} c (a : A) : style_only c (ret a).
Proof. intros w. exists a, w. split; [reflexivity | apply style_step_refl]. Qed.

Lemma style_only_bind {A B} c (m : M A) (k : A -> M B) :
  style_only c m -> (forall a, style_only c (k a)) -> style_only c (bind m k).
Proof.
  intros Hm Hk w. destruct (Hm w) as (a & w1 & Hrun & Hs1).
  destruct (Hk a w1) as (b & w2 & Hrun2 & Hs2).
  exists b, w2. split.
  - rewrite (bind_resolved _ _ _ _ _ Hrun). exact Hrun2.
  - eapply style_step_trans; eauto.
Qed.

Lemma style_only_read c id : style_only c (read id).
Proof. intros w. exists (getNode w id), w. split; [reflexivity | apply style_step_refl]. Qed.

Lemma style_only_getAttribute c name : style_only c (getAttribute c name).
Proof.
  unfold getAttribute. apply style_only_bind; [apply style_only_read|].
  intros nd. apply style_only_ret.
Qed.

Lemma style_only_setAttribute c v : style_only c (setAttribute c "style" v).
Proof.
  intros w. eexists tt, _. split; [reflexivity|].
  repeat split; auto.
  - intros id Hid. apply heap_write_ne. congruence.
  - eexists. split; [apply getNode_write_eq|].
    intros name Hname. apply assoc_get_set_ne. exact Hname.
Qed.

Lemma style_only_if {A} c (b : bool) (m1 m2 : M A) :
  style_only c m1 -> style_only c m2 -> style_only c (if b then m1 else m2).
Proof. destruct b; auto. Qed.

Lemma style_only_forEach {A} c (l : list A) (f : A -> M unit) :
  (forall x, style_only c (f x)) -> style_only c (forEach l f).
Proof.
  intros Hf. induction l as [|x l IH]; simpl.
  - apply style_only_ret.
  - apply style_only_bind; auto.
Qed.

Ltac style_auto :=
  repeat first
    [ apply style_only_bind; [|intros ?]
    | apply style_only_if
    | apply style_only_forEach; intros ?
    | apply style_only_ret
    | apply style_only_read
    | apply style_only_getAttribute
    | apply style_only_setAttribute
    | match goal with |- style_only _ (match ?x with _ => _ end) => destruct x end ].

(** X5.  [cloneCSSStyle] always resolves, calls no collaborator, creates no
    node, and writes nothing but the [style] attribute of the clone:
    every other attribute of the clone, every other field of it, and
    every other node are as they were. *)
Theorem style_snapshot_writes_only_the_style_attribute
    (host : Host) (nativeNode clonedNode : NodeId) (w : World) :
  exists w', cloneCSSStyle host nativeNode clonedNode w = (Resolved tt, w') /\
    next w' = next w /\ trace w' = trace w /\
    (forall id, id <> clonedNode -> heap w' !! id = heap w !! id) /\
    exists attrs,
      getNode w' clonedNode = with_attributes attrs (getNode w clonedNode) /\
      forall name, name <> "style" ->
        assoc_get name attrs = assoc_get name (attributes (getNode w clonedNode)).
Proof.
  assert (H : style_only clonedNode (cloneCSSStyle host nativeNode clonedNode)).
  { unfold cloneCSSStyle, patchBackgroundClip, patchFontFeatureSettings, fixTextWrap,
      patchAlignItems, patchPerspective, style_set_cssText, style_setProperty.
    style_auto. }
  destruct (H w) as ([] & w' & Hrun & Hstep). exists w'. split; [exact Hrun|exact Hstep].
Qed.

(** ** The patches, one after the other *)

Lemma append_patch_run c text w :
  exists w',
    (let* old := getAttribute c "style" in
     setAttribute c "style" (Js.template old ++ text)) w = (Resolved tt, w') /\
    inline_style w' c = Some (Js.template (inline_style w c) ++ text) /\
    forall id, id <> c -> getNode w' id = getNode w id.
Proof.
  unfold getAttribute. step. step. unfold setAttribute, update, modify.
  eexists. split; [reflexivity|]. split.
  - unfold inline_style. rewrite getNode_write_eq. simpl. apply assoc_get_set.
  - intros id Hid. apply getNode_write_ne. congruence.
Qed.

Lemma conditional_patch_run c (applies : bool) text w s :
  inline_style w c = Some s ->
  exists w',
    (if applies
     then let* old := getAttribute c "style" in
          setAttribute c "style" (Js.template old ++ text)
     else ret tt) w = (Resolved tt, w') /\
    inline_style w' c = Some (s ++ (if applies then text else "")) /\
    forall id, id <> c -> getNode w' id = getNode w id.
Proof.
  intros Hs. destruct applies.
  - destruct (append_patch_run c text w) as (w' & Hrun & Hi & Ho).
    exists w'. rewrite Hs in Hi. auto.
  - exists w. rewrite append_empty_r. auto.
Qed.

Lemma patchBackgroundClip_run source c w s :
  inline_style w c = Some s ->
  exists w', patchBackgroundClip source c w = (Resolved tt, w') /\
    inline_style w' c = Some (s ++ backgroundClipText source) /\
    forall id, id <> c -> getNode w' id = getNode w id.
Proof.
  intros Hs. unfold patchBackgroundClip, backgroundClipText. cbv zeta.
  destruct (conditional_patch_run c
              (negb (String.eqb (getPropertyValue source "-webkit-background-clip")
                       "border-box"))
              (";-webkit-background-clip:"
               ++ getPropertyValue source "-webkit-background-clip" ++ ";") w s Hs)
    as (w' & Hrun & Hi & Ho).
  exists w'. split; [exact Hrun|]. split; [|exact Ho].
  rewrite Hi. destruct (String.eqb _ "border-box"); reflexivity.
Qed.

Lemma patchFontFeatureSettings_run source c w s :
  inline_style w c = Some s ->
  exists w', patchFontFeatureSettings source c w = (Resolved tt, w') /\
    inline_style w' c = Some (s ++ fontFeatureSettingsText source) /\
    forall id, id <> c -> getNode w' id = getNode w id.
Proof.
  intros Hs. unfold patchFontFeatureSettings, fontFeatureSettingsText. cbv zeta.
  destruct (conditional_patch_run c
              (negb (String.eqb (getPropertyValue source "font-feature-settings")
                       (Js.dquote ++ "kern" ++ Js.dquote)))
              (";font-feature-settings:"
               ++ getPropertyValue source "font-feature-settings" ++ ";") w s Hs)
    as (w' & Hrun & Hi & Ho).
  exists w'. split; [exact Hrun|]. split; [|exact Ho].
  rewrite Hi. destruct (String.eqb _ (Js.dquote ++ "kern" ++ Js.dquote)); reflexivity.
Qed.

Lemma patchAlignItems_run source c w s :
  inline_style w c = Some s ->
  exists w', patchAlignItems source c w = (Resolved tt, w') /\
    inline_style w' c = Some (s ++ alignItemsText source) /\
    forall id, id <> c -> getNode w' id = getNode w id.
Proof.
  intros Hs. unfold patchAlignItems, alignItemsText. cbv zeta.
  destruct (conditional_patch_run c
              (negb (String.eqb (getPropertyValue source "align-items") "normal"))
              (";align-items:" ++ getPropertyValue source "align-items" ++ ";") w s Hs)
    as (w' & Hrun & Hi & Ho).
  exists w'. split; [exact Hrun|]. split; [|exact Ho].
  rewrite Hi. destruct (String.eqb _ "normal"); reflexivity.
Qed.

Lemma patchPerspective_run source c w s :
  inline_style w c = Some s ->
  exists w', patchPerspective source c w = (Resolved tt, w') /\
    inline_style w' c = Some (s ++ perspectiveText source) /\
    forall id, id <> c -> getNode w' id = getNode w id.
Proof.
  intros Hs. unfold patchPerspective, perspectiveText. cbv zeta.
  destruct (conditional_patch_run c
              (negb (String.eqb (getPropertyValue source "perspective") "none"))
              (";perspective:" ++ getPropertyValue source "perspective" ++ ";") w s Hs)
    as (w' & Hrun & Hi & Ho).
  exists w'. split; [exact Hrun|]. split; [|exact Ho].
  rewrite Hi. destruct (String.eqb _ "none"); reflexivity.
Qed.

Lemma fixTextWrap_run n c w s :
  inline_style w c = Some s ->
  exists w', fixTextWrap n c w = (Resolved tt, w') /\
    inline_style w' c = Some (s ++ widthText (getNode w n)) /\
    forall id, id <> c -> getNode w' id = getNode w id.
Proof.
  intros Hs. unfold fixTextWrap, widthText. step_read. cbv zeta.
  destruct (bool_decide (tagName (getNode w n) = Some "P")); cbn [andb].
  - destruct (Js.includes (getPropertyValue (computedStyle (getNode w n)) "width") ".").
    + destruct (append_patch_run c
                  (";width:" ++
                   Number.toString
                     (Number.ceil
                        (if Number.gtb
                              (Number.mod1
                                 (Number.parseFloat
                                    (getPropertyValue (computedStyle (getNode w n)) "width")))
                              (Number.ofDecimal false 9 1)
                         then Number.add
                                (Number.parseFloat
                                   (getPropertyValue (computedStyle (getNode w n)) "width"))
                                (Number.ofZ 1)
                         else Number.parseFloat
                                (getPropertyValue (computedStyle (getNode w n)) "width")))
                   ++ "px;") w) as (w' & Hrun & Hi & Ho).
      exists w'. rewrite Hs in Hi. auto.
    + exists w. rewrite append_empty_r. auto.
  - exists w. rewrite append_empty_r. auto.
Qed.

(** X6.  On a host that gives the computed style as text, for a clone
    that has a style property, the inline style [cloneCSSStyle] leaves
    on the clone is what the host makes of that text when it is
    assigned to [style.cssText], followed by the patches that apply,
    in the order of the source: background clip, font feature
    settings, paragraph width, align items, perspective. *)
Theorem inline_style_is_computed_text_then_patches
    (host : Host) (nativeNode clonedNode : NodeId) (w : World) :
  nativeNode <> clonedNode ->
  hasStyle (getNode w clonedNode) = true ->
  cssText (computedStyle (getNode w nativeNode)) <> "" ->
  exists w', cloneCSSStyle host nativeNode clonedNode w = (Resolved tt, w') /\
    inline_style w' clonedNode
    = Some (List.fold_left String.append (quirkTexts (getNode w nativeNode))
              (styleText host (cssText (computedStyle (getNode w nativeNode))))).
Proof.
  intros Hne Hstyle Htext. apply String.eqb_neq in Htext.
  unfold cloneCSSStyle. step_read. step_read. rewrite Hstyle. cbn [negb].
  unfold Js.truthy. rewrite Htext. cbn [negb].
  set (source := computedStyle (getNode w nativeNode)).
  unfold style_set_cssText. rewrite bind_run.
  unfold setAttribute at 1, update, modify. cbv beta iota.
  set (w1 := write clonedNode _ w).
  assert (H1 : inline_style w1 clonedNode = Some (styleText host (cssText source))).
  { unfold inline_style, w1. rewrite getNode_write_eq. simpl. apply assoc_get_set. }
  assert (N1 : getNode w1 nativeNode = getNode w nativeNode).
  { unfold w1. apply getNode_write_ne. congruence. }
  destruct (patchBackgroundClip_run source clonedNode w1 _ H1) as (w2 & R2 & H2 & O2).
  rewrite bind_run, R2.
  destruct (patchFontFeatureSettings_run source clonedNode w2 _ H2) as (w3 & R3 & H3 & O3).
  rewrite bind_run, R3.
  destruct (fixTextWrap_run nativeNode clonedNode w3 _ H3) as (w4 & R4 & H4 & O4).
  rewrite bind_run, R4.
  destruct (patchAlignItems_run source clonedNode w4 _ H4) as (w5 & R5 & H5 & O5).
  rewrite bind_run, R5.
  destruct (patchPerspective_run source clonedNode w5 _ H5) as (w6 & R6 & H6 & O6).
  exists w6. split; [exact R6|]. rewrite H6.
  rewrite (O3 nativeNode Hne), (O2 nativeNode Hne), N1. reflexivity.
Qed.

(** X7.  On a host that gives an empty computed style, a clone that has a
    style property but no [style] attribute ends up with an inline
    style that opens with the text [null] and holds four empty
    declarations: the first patch pastes the missing attribute into
    its template, and every patch applies because an empty value is
    no default. *)
Theorem empty_computed_style_writes_null
    (host : Host) (nativeNode clonedNode : NodeId) (w : World) :
  nativeNode <> clonedNode ->
  hasStyle (getNode w clonedNode) = true ->
  inline_style w clonedNode = None ->
  computedStyle (getNode w nativeNode) = noStyle ->
  exists w', cloneCSSStyle host nativeNode clonedNode w = (Resolved tt, w') /\
    inline_style w' clonedNode
    = Some ("null;-webkit-background-clip:;;font-feature-settings:;"
            ++ ";align-items:;;perspective:;").
Proof.
  intros Hne Hstyle Hnone Hempty.
  unfold cloneCSSStyle. step_read. step_read. rewrite Hstyle, Hempty. cbn [negb].
  unfold Js.truthy. cbn [cssText noStyle String.eqb negb declarations List.map forEach].
  step.
  unfold patchBackgroundClip at 1. cbv zeta.
  change (getPropertyValue noStyle "-webkit-background-clip") with "".
  change (negb (String.eqb "" "border-box")) with true. cbv iota.
  destruct (append_patch_run clonedNode (";-webkit-background-clip:" ++ "" ++ ";") w)
    as (w2 & R2 & H2 & O2).
  rewrite bind_run, R2. rewrite Hnone in H2.
  destruct (patchFontFeatureSettings_run noStyle clonedNode w2 _ H2) as (w3 & R3 & H3 & O3).
  rewrite bind_run, R3.
  destruct (fixTextWrap_run nativeNode clonedNode w3 _ H3) as (w4 & R4 & H4 & O4).
  rewrite bind_run, R4.
  destruct (patchAlignItems_run noStyle clonedNode w4 _ H4) as (w5 & R5 & H5 & O5).
  rewrite bind_run, R5.
  destruct (patchPerspective_run noStyle clonedNode w5 _ H5) as (w6 & R6 & H6 & O6).
  exists w6. split; [exact R6|]. rewrite H6.
  assert (Hw : widthText (getNode w3 nativeNode) = "").
  { rewrite (O3 nativeNode Hne), (O2 nativeNode Hne).
    unfold widthText. rewrite Hempty. cbv zeta.
    change (Js.includes (getPropertyValue noStyle "width") ".") with false.
    rewrite andb_false_r. reflexivity. }
  rewrite Hw. reflexivity.
Qed.

Lemma inline_style_is_computed_text_then_patches_witness :
  exists w', cloneCSSStyle Sample.host 1 9 Sample.page_with_root_clone
             = (Resolved tt, w') /\
    inline_style w' 9 = Some "width: 10.95px;;width:12px;".
Proof.
  destruct (inline_style_is_computed_text_then_patches
              Sample.host 1 9 Sample.page_with_root_clone)
    as (w' & Hrun & Hs).
  - lia.
  - reflexivity.
  - discriminate.
  - exists w'. split; [exact Hrun|]. rewrite Hs. vm_compute. reflexivity.
Defined.

Lemma empty_computed_style_writes_null_witness :
  exists w', cloneCSSStyle Sample.host 0 9 Sample.page_with_root_clone
             = (Resolved tt, w') /\
    inline_style w' 9
    = Some "null;-webkit-background-clip:;;font-feature-settings:;;align-items:;;perspective:;".
Proof.
  destruct (empty_computed_style_writes_null
              Sample.host 0 9 Sample.page_with_root_clone)
    as (w' & Hrun & Hs).
  - lia.
  - reflexivity.
  - reflexivity.
  - reflexivity.
  - exists w'. split; [exact Hrun|]. rewrite Hs. reflexivity.
Defined.

(** ** The walk, seen from the clone *)

Lemma cloneChildren_family host fuel n c opts w r w' :
  pseudo_contract (clonePseudoElements host) ->
  c < next w ->
  parentNode (getNode w c) = None ->
  cloneChildren (cloneNode host fuel) n c opts w = (Resolved r, w') ->
  next w <= next w' /\
  (exists l, getNode w' c = with_childNodes l (getNode w c)) /\
  (forall id, id < next w -> id <> c -> heap w' !! id = heap w !! id) /\
  exists appended,
    childNodes (getNode w' c) = (childNodes (getNode w c) ++ appended)%list /\
    Forall (fun ch => parentNode (getNode w' ch) = Some c /\ next w <= ch) appended.
Proof.
  intros Hp Hc Hpar. rewrite cloneChildren_run.
  destruct (skipsChildren w n).
  - intros [= <- <-]. split; [lia|]. split; [|split].
    + exists (childNodes (getNode w c)). symmetry. apply with_childNodes_same.
    + auto.
    + exists []. rewrite app_nil_r. split; [reflexivity|constructor].
  - rewrite bind_run.
    destruct (cloneEach _ _ _ _ w) as [[[]|e|] w1] eqn:Heach; try discriminate.
    unfold ret. intros [= <- <-].
    assert (Hready : ready 0 c w).
    { repeat split; auto; [lia|]. apply Forall_forall. intros; lia. }
    destruct (cloneEach_family _ opts _ _
                (fun ch => cloneNode_post host Hp fuel ch opts None) _ _ _ _ Hready Heach)
      as (Hothers & Hl & Hres).
    destruct (cloneEach_post _ opts _ _
                (fun ch => cloneNode_post host Hp fuel ch opts None) _ _ _ _ Hready Heach)
      as (Hn & _).
    destruct (Hres eq_refl) as (rs & _ & Hch & Hparents).
    split; [exact Hn|]. split; [exact Hl|]. split; [exact Hothers|].
    exists (omap id rs). auto.
Qed.

(** What the stages leave for the value materialisation of a node
    that [cloneSingleNode] copies as it is: the clone is the first new
    node, and the source is as it was. *)
Lemma before_cloneInputValue host fuel node opts isRoot w c w' :
  pseudo_contract (clonePseudoElements host) ->
  node < next w ->
  instanceof (interface (getNode w node)) HTMLCanvasElement = false ->
  instanceof (interface (getNode w node)) HTMLVideoElement = false ->
  instanceof (interface (getNode w node)) Element = true ->
  cloneNode host fuel node opts isRoot w = (Resolved (Some c), w') ->
  exists w4, (cloneInputValue host node c ;;; ret c) w4 = (Resolved c, w') /\
    getNode w4 node = getNode w node /\ c = next w /\ c < next w4.
Proof.
  intros Hp Hnode Hcanvas Hvideo Helem Hrun.
  destruct fuel as [|fuel]; [discriminate|].
  destruct (cloneNode_stages _ _ _ _ _ _ _ _ Hrun) as (w1 & w2 & H1 & H2 & H3).
  set (wl := logged (Visit node) w) in *.
  rewrite cloneSingleNode_plain in H1 by assumption.
  apply shallowClone_cases in H1
    as ([= ->] & Hn1 & _ & Hf1 & Hpar1 & _ & Hi1 & _).
  change (next wl) with (next w) in *.
  destruct (cloneChildren_family host fuel node (next w) opts w1 _ w2 Hp
              ltac:(lia) Hpar1 H2) as (Hn2 & (l & Hl) & Hf2 & _).
  assert (He2 : instanceof (interface (getNode w2 (next w))) Element = true).
  { rewrite Hl. cbn [interface with_childNodes]. rewrite Hi1. exact Helem. }
  destruct (decorate_element host node (next w) w2 He2)
    as (w3 & _ & (Hn3 & _ & Hf3 & _) & Hdec).
  rewrite Hdec in H3.
  pose proof (pseudo_next _ Hp node (next w) w3) as Hn4.
  exists (clonePseudoElements host node (next w) w3). split; [exact H3|].
  split; [|split; [reflexivity|lia]].
  apply getNode_agree.
  rewrite (pseudo_frame _ Hp) by lia.
  rewrite Hf3 by lia. rewrite Hf2 by lia. apply Hf1. exact Hnode.
Qed.

(** ** Form values, from the source to the returned clone *)

(** X8.  The clone [cloneNode] returns for an input carries the live
    value of the source in its [value] attribute.  The clone it returns
    for a textarea holds what the host's parser makes of the live
    value, read as markup: no child when that is empty, and otherwise
    one new text node with that character data.  The clones of the
    children of the textarea, and whatever [clonePseudoElements]
    appended, are dropped again by the assignment to [innerHTML],
    which comes last. *)
Theorem form_values_reach_the_returned_clone
    (host : Host) (fuel : nat) (node : NodeId) (opts : Options)
    (isRoot : option bool) (w : World) (c : NodeId) (w' : World) :
  pseudo_contract (clonePseudoElements host) ->
  node < next w ->
  cloneNode host fuel node opts isRoot w = (Resolved (Some c), w') ->
  (instanceof (interface (getNode w node)) HTMLInputElement = true ->
     assoc_get "value" (attributes (getNode w' c)) = Some (value (getNode w node))) /\
  (instanceof (interface (getNode w node)) HTMLTextAreaElement = true ->
     let text := parseText host (value (getNode w node)) in
     (text = "" -> childNodes (getNode w' c) = []) /\
     (text <> "" ->
        exists t, childNodes (getNode w' c) = [t] /\ next w < t /\
          getNode w' t = textNode c text)).
Proof.
  intros Hp Hnode Hrun. split; intros Hi.
  - pose proof Hi as Hi'. apply bool_decide_eq_true in Hi'.
    destruct (before_cloneInputValue host fuel node opts isRoot w c w' Hp Hnode)
      as (w4 & Hlast & Hsame & _); try (rewrite Hi'; reflexivity); [exact Hrun|].
    rewrite bind_run, cloneInputValue_input in Hlast by (rewrite Hsame; exact Hi).
    unfold ret in Hlast. injection Hlast as <-.
    rewrite getNode_write_eq. cbn [attributes with_attributes].
    rewrite Hsame. apply assoc_get_set.
  - pose proof Hi as Hi'. apply bool_decide_eq_true in Hi'.
    destruct (before_cloneInputValue host fuel node opts isRoot w c w' Hp Hnode)
      as (w4 & Hlast & Hsame & Hc & Hc4); try (rewrite Hi'; reflexivity); [exact Hrun|].
    destruct (cloneInputValue_textarea host node c w4) as (w5 & Hrun5 & Hn5).
    { lia. }
    { exact Hc4. }
    { rewrite Hsame. exact Hi. }
    rewrite bind_run, Hrun5 in Hlast. unfold ret in Hlast. injection Hlast as <-.
    rewrite Hsame. cbv zeta.
    set (text := parseText host (value (getNode w node))).
    split.
    + intros Hempty. rewrite reparsed_node by lia.
      unfold Js.truthy. rewrite Hempty. reflexivity.
    + intros Hsome.
      assert (Ht : Js.truthy text = true).
      { unfold Js.truthy. apply negb_true_iff, String.eqb_neq. exact Hsome. }
      exists (next w5). split; [|split].
      * rewrite reparsed_node by lia. rewrite Ht. reflexivity.
      * lia.
      * apply reparsed_text; [exact Ht|lia].
Qed.

Lemma form_values_reach_the_returned_clone_witness :
  (let run := cloneNode Sample.host 3 3 Sample.keep_all None Sample.page in
   run.1 = Resolved (Some 9) /\
   assoc_get "value" (attributes (getNode run.2 9)) = Some "42") /\
  (let run := cloneNode Sample.host 3 0 Sample.keep_all (Some true) Sample.memo in
   run.1 = Resolved (Some 2) /\
   exists t, childNodes (getNode run.2 2) = [t] /\ next Sample.memo < t /\
     getNode run.2 t = textNode 2 "edited").
Proof.
  split; (split; [vm_compute; reflexivity|]).
  - apply (form_values_reach_the_returned_clone
             Sample.host 3 3 Sample.keep_all None Sample.page 9).
    + exact sample_pseudo_ok.
    + vm_compute. lia.
    + vm_compute. reflexivity.
    + reflexivity.
  - apply (form_values_reach_the_returned_clone
             Sample.host 3 0 Sample.keep_all (Some true) Sample.memo 2).
    + exact sample_pseudo_ok.
    + vm_compute. lia.
    + vm_compute. reflexivity.
    + reflexivity.
    + discriminate.
Defined.

Lemma rejection_stops_the_walk_witness :
  let w := (shallowClone 0 Sample.late_failure).2 in
  let run := cloneChildren (cloneNode Sample.host 2) 0 4 Sample.keep_all w in
  run.1 = Rejected "fetch failed" /\
  exists before child after results w1,
    effectiveChildren w 0 = (before ++ child :: after)%list /\
    seq_clone (cloneNode Sample.host 2) 4 Sample.keep_all before w results w1 /\
    cloneNode Sample.host 2 child Sample.keep_all None w1
    = (Rejected "fetch failed", run.2).
Proof.
  split; [vm_compute; reflexivity|].
  apply (rejection_stops_the_walk
           Sample.host 2 0 4 Sample.keep_all (shallowClone 0 Sample.late_failure).2).
  vm_compute. reflexivity.
Defined.

(** ** Nodes that are no elements *)

Lemma non_element_is_plain i :
  instanceof i Element = false ->
  instanceof i HTMLCanvasElement = false /\ instanceof i HTMLVideoElement = false.
Proof. destruct i; simpl; intros H; try discriminate; auto. Qed.

(** X9.  The clone of a childless node that is no element, a text or a
    comment, is what [cloneNode(false)] gives and nothing more: no
    style is written on it and [clonePseudoElements] is not called,
    whatever the host. *)
Theorem childless_non_element_is_copied_as_it_is
    (host : Host) (fuel : nat) (node : NodeId) (opts : Options)
    (isRoot : option bool) (w : World) :
  node < next w ->
  instanceof (interface (getNode w node)) Element = false ->
  shadowRoot (getNode w node) = None ->
  effectiveChildren w node = [] ->
  (not_root isRoot &&
   match filter opts with
   | Some f => negb (f (heap w) node)
   | None => false
   end) = false ->
  cloneNode host (S fuel) node opts isRoot w
  = (Resolved (Some (next w)), (shallowClone node (logged (Visit node) w)).2).
Proof.
  intros Hnode Helem Hsr Hkids Hkeep.
  destruct (non_element_is_plain _ Helem) as (Hcanvas & Hvideo).
  cbn [cloneNode]. step. step. cbn [heap logged]. rewrite Hkeep.
  set (wl := logged (Visit node) w).
  rewrite bind_run, cloneSingleNode_plain by assumption.
  destruct (shallowClone node wl) as [o1 w1] eqn:Hclone.
  apply shallowClone_cases in Hclone
    as (-> & Hn1 & _ & Hf1 & _ & _ & Hi1 & _).
  change (next wl) with (next w) in *.
  assert (Hskip : skipsChildren w1 node = true).
  { unfold skipsChildren.
    rewrite (effectiveChildren_agree (next w) wl w1 node Hf1 Hnode).
    - change (effectiveChildren wl node) with (effectiveChildren w node).
      rewrite Hkids. reflexivity.
    - change (getNode wl node) with (getNode w node). rewrite Hsr. exact I. }
  rewrite bind_run, cloneChildren_run, Hskip.
  rewrite bind_run, decorate_other.
  - reflexivity.
  - rewrite Hi1. exact Helem.
Qed.

Lemma childless_non_element_is_copied_as_it_is_witness :
  cloneNode Sample.host 1 1 Sample.keep_all None Sample.memo
  = (Resolved (Some 2), (shallowClone 1 (logged (Visit 1) Sample.memo)).2).
Proof.
  apply (childless_non_element_is_copied_as_it_is
           Sample.host 0 1 Sample.keep_all None Sample.memo).
  - vm_compute. lia.
  - reflexivity.
  - reflexivity.
  - reflexivity.
  - reflexivity.
Defined.

(** ** The children of the returned clone *)

Lemma decorate_children host k n c w out w' :
  pseudo_contract (clonePseudoElements host) ->
  ready k c w ->
  decorate host n c w = (out, w') ->
  Forall (fun ch => k <= ch) (childNodes (getNode w' c)).
Proof.
  intros Hp Hready. pose proof Hready as (Hk & Hc & Hpar & Hch).
  destruct (instanceof (interface (getNode w c)) Element) eqn:He.
  - destruct (decorate_element host n c w He) as (w1 & _ & (Hn1 & _ & _ & l & Hl) & ->).
    set (w2 := clonePseudoElements host n c w1).
    assert (Hready2 : ready k c w2).
    { pose proof (pseudo_next _ Hp n c w1) as Hn2. fold w2 in Hn2.
      split; [exact Hk|]. split; [lia|]. split.
      - unfold w2. rewrite (pseudo_parent _ Hp) by lia.
        rewrite Hl. exact Hpar.
      - rewrite Forall_forall. intros ch Hin.
        destruct (pseudo_children _ Hp n c w1 ch ltac:(lia) Hin) as [Hold|Hnew].
        + rewrite Hl in Hold. cbn [childNodes with_attributes] in Hold.
          rewrite Forall_forall in Hch. auto.
        + lia. }
    rewrite bind_run.
    destruct (cloneInputValue host n c w2) as [o w3] eqn:Hrun.
    destruct (cloneInputValue_post host k n c w2 o w3 Hready2 Hrun)
      as (-> & _ & _ & _ & _ & _ & _ & Hkids).
    unfold ret. intros [= <- <-]. exact Hkids.
  - rewrite (decorate_other host n c w He). intros [= <- <-]. exact Hch.
Qed.

(** X10.  The clone [cloneNode] returns shares no child with the source
    tree: it is a new node, and so is every child it has when the call
    returns, whether appended by the walk over the children or by
    [clonePseudoElements]. *)
Theorem the_clone_shares_no_child_with_the_source
    (host : Host) (fuel : nat) (node : NodeId) (opts : Options)
    (isRoot : option bool) (w : World) (c : NodeId) (w' : World) :
  pseudo_contract (clonePseudoElements host) ->
  cloneNode host fuel node opts isRoot w = (Resolved (Some c), w') ->
  next w <= c /\
  Forall (fun ch => next w <= ch) (childNodes (getNode w' c)).
Proof.
  intros Hp Hrun. destruct fuel as [|fuel]; [discriminate|].
  destruct (cloneNode_stages _ _ _ _ _ _ _ _ Hrun) as (w1 & w2 & H1 & H2 & H3).
  set (wl := logged (Visit node) w) in *.
  destruct (cloneSingleNode_post _ _ _ _ _ _ H1) as (_ & _ & Hc1).
  destruct (Hc1 c eq_refl) as (-> & Hn1 & Hpar1 & Hch1).
  change (next wl) with (next w) in *.
  split; [lia|].
  destruct (cloneChildren_family host fuel node (next w) opts w1 _ w2 Hp
              ltac:(lia) Hpar1 H2) as (Hn2 & _ & _ & appended & Happ & Hnew).
  destruct (cloneChildren_family host fuel node (next w) opts w1 _ w2 Hp
              ltac:(lia) Hpar1 H2) as (_ & (l & Hl) & _).
  rewrite Hch1 in Happ. cbn [app] in Happ.
  eapply (decorate_children host (next w) node (next w) w2); [exact Hp| |exact H3].
  split; [lia|]. split; [lia|]. split.
  - rewrite Hl. exact Hpar1.
  - rewrite Happ. eapply Forall_impl; [exact Hnew|].
    cbv beta. intros ch [_ Hge]. lia.
Qed.

Lemma the_clone_shares_no_child_with_the_source_witness :
  let run := cloneNode Sample.host 3 0 Sample.no_script None Sample.page in
  run.1 = Resolved (Some 9) /\
  next Sample.page <= 9 /\
  Forall (fun ch => next Sample.page <= ch) (childNodes (getNode run.2 9)).
Proof.
  split; [vm_compute; reflexivity|].
  apply (the_clone_shares_no_child_with_the_source
           Sample.host 3 0 Sample.no_script None Sample.page 9).
  - exact sample_pseudo_ok.
  - vm_compute. reflexivity.
Defined.

(** ** The order of the visits *)

Lemma visits_app evs1 evs2 : visits (evs1 ++ evs2) = (visits evs1 ++ visits evs2)%list.
Proof. apply omap_app. Qed.

Lemma visits_visit n evs : visits (Visit n :: evs) = n :: visits evs.
Proof. reflexivity. Qed.

Lemma cloneSingleNode_visits host node opts w out w' :
  cloneSingleNode host node opts w = (out, w') ->
  exists evs, trace w' = (trace w ++ evs)%list /\ visits evs = [].
Proof.
  assert (Himg : forall url w0 o w1,
    createImage host url w0 = (o, w1) ->
    exists evs, trace w1 = (trace w0 ++ evs)%list /\ visits evs = []).
  { intros url w0 o w1 H.
    apply createImage_cases in H as [(e & _ & ->)|(_ & _ & Ht & _)].
    - exists [CreateImage url (Some e)]. auto.
    - exists [CreateImage url None]. auto. }
  assert (Hcopy : forall n w0 o w1,
    shallowClone n w0 = (o, w1) ->
    exists evs, trace w1 = (trace w0 ++ evs)%list /\ visits evs = []).
  { intros n w0 o w1 H. apply shallowClone_cases in H as (_ & _ & Ht & _).
    exists []. rewrite app_nil_r. auto. }
  unfold cloneSingleNode, cloneCanvasElement, cloneVideoElement, getBlobFromURL.
  step.
  destruct (instanceof (interface (getNode w node)) HTMLCanvasElement).
  - step. destruct (String.eqb _ _); eauto.
  - destruct (_ && _); [|eauto].
    repeat step. destruct (network host _ opts) as [e|data].
    + repeat step. intros [= <- <-]. eexists [_]. split; reflexivity.
    + repeat step. intros H. apply Himg in H as (evs & Ht & Hv).
      eexists (_ :: evs). split.
      * rewrite Ht. cbn [trace logged]. rewrite <- app_assoc. reflexivity.
      * exact Hv.
Qed.

Lemma flat_map_preorder_agree k w w' d
    (IH : forall n, within_depth w k d n = true -> preorder w' d n = preorder w d n) l :
  forallb (within_depth w k d) l = true ->
  flat_map (preorder w' d) l = flat_map (preorder w d) l.
Proof.
  induction l as [|x l IHl]; simpl; [reflexivity|].
  rewrite andb_true_iff. intros [Hx Hl]. rewrite IH, IHl; auto.
Qed.

Lemma preorder_agree k w w' :
  agree_below k w w' ->
  forall d n, within_depth w k d n = true -> preorder w' d n = preorder w d n.
Proof.
  intros Hf. induction d as [|d IH]; intros n; simpl; [discriminate|].
  rewrite !andb_true_iff. intros [[Hn Hsr] Hch].
  apply bool_decide_eq_true in Hn.
  assert (Hsr' : match shadowRoot (getNode w n) with Some sr => sr < k | None => True end).
  { destruct (shadowRoot (getNode w n)); [|exact I]. apply bool_decide_eq_true in Hsr. exact Hsr. }
  rewrite (effectiveChildren_agree k w w' n Hf Hn Hsr').
  rewrite (getNode_agree w w' n) by (apply Hf, Hn).
  rewrite (flat_map_preorder_agree k w w' d IH _ Hch). reflexivity.
Qed.

Lemma cloneEach_walk rec opts k d c :
  (forall child w out w', rec child opts None w = (out, w') -> node_post w out w') ->
  (forall child w out w', k <= next w -> within_depth w k d child = true ->
     rec child opts None w = (out, w') ->
     walks opts w d (preorder w d child) out w') ->
  forall children w out w',
    ready k c w ->
    forallb (within_depth w k d) children = true ->
    cloneEach rec c opts children w = (out, w') ->
    walks opts w d (flat_map (preorder w d) children) out w'.
Proof.
  intros Hpost Hwalk.
  induction children as [|child rest IH]; intros w out w' Hready Hdepth.
  - simpl. unfold ret. intros [= <- <-]. exists []. rewrite app_nil_r.
    split; [reflexivity|]. split; [apply sublist_nil_l|reflexivity].
  - simpl in Hdepth. apply andb_true_iff in Hdepth as [Hd Hrest].
    pose proof Hready as (Hk & Hc & Hp & Hch).
    simpl. rewrite bind_run.
    destruct (rec child opts None w) as [o1 w1] eqn:Hrun.
    assert (Hkw : k <= next w) by lia.
    destruct (Hwalk _ _ _ _ Hkw Hd Hrun) as (evs1 & Ht1 & Hsub1 & Heq1).
    destruct (Hpost _ _ _ _ Hrun) as (Hn & Hf & Hc').
    destruct o1 as [r|e|].
    2,3: intros [= <- <-]; exists evs1; split; [exact Ht1|]; split;
      [apply sublist_inserts_r; exact Hsub1|intros _ [x Hx]; discriminate].
    pose proof (ready_agree k c w w1 Hready Hn Hf) as Hready1.
    assert (Hfk : agree_below k w w1) by (eapply agree_below_weaken; [|exact Hf]; lia).
    rewrite bind_run.
    assert (Hnext : exists w2,
      match r with Some c' => appendChild c c' | None => ret tt end w1 = (Resolved tt, w2) /\
      trace w2 = trace w1 /\ ready k c w2 /\ agree_below k w w2).
    { destruct r as [c'|].
      - destruct (Hc' c' eq_refl) as (Hlo & Hhi & Hpar).
        exists (appended c c' w1). split; [apply appendChild_detached, Hpar|].
        split; [reflexivity|]. split.
        + apply ready_appended; auto; lia.
        + eapply agree_below_trans; [exact Hfk|]. apply appended_agree; lia.
      - exists w1. auto. }
    destruct Hnext as (w2 & -> & Ht2 & Hready2 & Hf2).
    intros Hrun2.
    assert (Hrest2 : forallb (within_depth w2 k d) rest = true).
    { rewrite forallb_forall in *. intros x Hx.
      apply (within_depth_agree k w _ Hf2), Hrest, Hx. }
    destruct (IH _ _ _ Hready2 Hrest2 Hrun2) as (evs2 & Ht & Hsub2 & Heq2).
    rewrite (flat_map_preorder_agree k w w2 d
               (preorder_agree k w w2 Hf2 d) rest Hrest) in Hsub2, Heq2.
    exists (evs1 ++ evs2)%list. split; [|split].
    + rewrite Ht, Ht2, Ht1, <- app_assoc. reflexivity.
    + rewrite visits_app. apply sublist_app; assumption.
    + intros Hnone Hres. rewrite visits_app, Heq1, Heq2; eauto.
Qed.

Lemma cloneNode_walk host fuel :
  pseudo_contract (clonePseudoElements host) ->
  forall d node opts r k w out w',
    k <= next w ->
    within_depth w k d node = true ->
    cloneNode host fuel node opts r w = (out, w') ->
    walks opts w d (preorder w d node) out w'.
Proof.
  intros Hp.
  induction fuel as [|fuel IH]; intros d node opts r k w out w' Hk Hdepth.
  - simpl. unfold pending. intros [= <- <-]. exists []. rewrite app_nil_r.
    split; [reflexivity|]. split; [apply sublist_nil_l|].
    intros _ [x Hx]. discriminate.
  - destruct d as [|d]; [discriminate|].
    simpl in Hdepth. rewrite !andb_true_iff in Hdepth.
    destruct Hdepth as [[Hn Hsr] Hch]. apply bool_decide_eq_true in Hn.
    cbn [cloneNode preorder]. step. step.
    set (wl := logged (Visit node) w).
    set (below := if instanceof (interface (getNode w node)) HTMLVideoElement
                  then [] else flat_map (preorder w d) (effectiveChildren w node)).
    assert (Hstop : forall evs, visits evs = [] ->
      visits (Visit node :: evs) `sublist_of` node :: below).
    { intros evs Hv. rewrite visits_visit, Hv.
      apply sublist_skip, sublist_nil_l. }
    destruct (_ && _) eqn:Hcond.
    { intros [= <- <-]. exists [Visit node]. split; [reflexivity|].
      split; [apply (Hstop []); reflexivity|].
      intros Hnone _. cbn [heap logged] in Hcond. rewrite Hnone in Hcond.
      rewrite andb_false_r in Hcond. discriminate. }
    rewrite bind_run.
    destruct (cloneSingleNode host node opts wl) as [o1 w1] eqn:Hsingle.
    destruct (cloneSingleNode_visits _ _ _ _ _ _ Hsingle) as (evs1 & Ht1 & Hv1).
    destruct (cloneSingleNode_post _ _ _ _ _ _ Hsingle) as (Hn1 & Hf1 & Hc1).
    destruct o1 as [c1|e|].
    2,3: intros [= <- <-]; exists (Visit node :: evs1); split;
      [rewrite Ht1; cbn [trace logged wl]; rewrite <- app_assoc; reflexivity|];
      split; [apply Hstop, Hv1|intros _ [x Hx]; discriminate].
    destruct (Hc1 c1 eq_refl) as (-> & Hnext1 & Hpar1 & Hch1).
    change (next wl) with (next w) in *.
    assert (Hready1 : ready (next w) (next w) w1).
    { unfold ready. rewrite Hpar1, Hch1. repeat split; auto. lia. }
    assert (Hfk : agree_below k w w1).
    { eapply agree_below_weaken; [|exact Hf1]. exact Hk. }
    assert (Hsr' : match shadowRoot (getNode w node) with Some sr => sr < k | None => True end).
    { destruct (shadowRoot (getNode w node)); [|exact I].
      apply bool_decide_eq_true in Hsr. exact Hsr. }
    pose proof (effectiveChildren_agree k w w1 node Hfk Hn Hsr') as Hkids.
    assert (Hnode1 : getNode w1 node = getNode w node) by (apply getNode_agree, Hfk, Hn).
    rewrite bind_run, cloneChildren_run.
    destruct (skipsChildren w1 node) eqn:Hskip.
    + rewrite bind_run.
      destruct (decorate host node (next w) w1) as [o3 w3] eqn:Hdec.
      destruct (decorate_post host Hp _ _ _ _ _ _ Hready1 Hdec) as (-> & _ & Ht3 & _).
      unfold ret. intros [= <- <-]. exists (Visit node :: evs1). split; [|split].
      * rewrite Ht3, Ht1. cbn [trace logged wl]. rewrite <- app_assoc. reflexivity.
      * apply Hstop, Hv1.
      * intros _ _. rewrite visits_visit, Hv1.
        f_equal. unfold below. unfold skipsChildren in Hskip.
        rewrite Hkids, Hnode1 in Hskip.
        destruct (instanceof _ HTMLVideoElement); [reflexivity|].
        rewrite orb_false_r in Hskip. apply Nat.eqb_eq in Hskip.
        destruct (effectiveChildren w node); [reflexivity|discriminate].
    + assert (Hbelow : below = flat_map (preorder w d) (effectiveChildren w node)).
      { unfold below. unfold skipsChildren in Hskip. rewrite Hnode1 in Hskip.
        apply orb_false_iff in Hskip as [_ ->]. reflexivity. }
      rewrite bind_run.
      destruct (cloneEach _ _ _ _ w1) as [o2 w2] eqn:Heach.
      assert (Hdepth1 : forallb (within_depth w1 k d) (effectiveChildren w1 node) = true).
      { rewrite Hkids. rewrite forallb_forall in *. intros x Hx.
        apply (within_depth_agree k w _ Hfk), Hch, Hx. }
      destruct (cloneEach_walk (cloneNode host fuel) opts k d (next w)
                  (fun ch => cloneNode_post host Hp fuel ch opts None)
                  (fun child w0 out0 w0' Hk0 Hd0 Hrun0 =>
                     IH d child opts None k w0 out0 w0' Hk0 Hd0 Hrun0)
                  _ _ _ _ (ready_weaken _ _ _ _ Hk Hready1) Hdepth1 Heach)
        as (evs2 & Ht2 & Hsub2 & Heq2).
      rewrite Hkids in Hsub2, Heq2.
      rewrite (flat_map_preorder_agree k w w1 d
                 (preorder_agree k w w1 Hfk d) _ Hch) in Hsub2, Heq2.
      assert (Hsub : visits (Visit node :: evs1 ++ evs2) `sublist_of` node :: below).
      { rewrite visits_visit, visits_app, Hv1, Hbelow. apply sublist_skip. exact Hsub2. }
      assert (Htrace : trace w2 = (trace w ++ Visit node :: evs1 ++ evs2)%list).
      { rewrite Ht2, Ht1. cbn [trace logged wl]. rewrite <- !app_assoc. reflexivity. }
      destruct (cloneEach_post _ opts _ _
                  (fun ch => cloneNode_post host Hp fuel ch opts None) _ _ _ _ Hready1 Heach)
        as (_ & _ & Hr2 & _).
      destruct o2 as [[]|e|].
      2,3: intros [= <- <-]; exists (Visit node :: evs1 ++ evs2)%list; split;
        [exact Htrace|]; split; [exact Hsub|intros _ [x Hx]; discriminate].
      unfold ret at 1. cbv beta iota. rewrite bind_run.
      destruct (decorate host node (next w) w2) as [o3 w3] eqn:Hdec.
      destruct (decorate_post host Hp _ _ _ _ _ _ Hr2 Hdec) as (-> & _ & Ht3 & _).
      unfold ret. intros [= <- <-].
      exists (Visit node :: evs1 ++ evs2)%list. split; [|split].
      * rewrite Ht3. exact Htrace.
      * exact Hsub.
      * intros Hnone _. rewrite visits_visit, visits_app, Hv1, Hbelow. f_equal. apply Heq2; eauto.
Qed.

(** X11.  [cloneNode] visits the tree in document order: the nodes it
    enters, in the order it enters them, are nodes of the tree under
    its argument listed parent first and siblings left to right, never
    a node below a video; when there is no filter and the call
    resolves, they are all of them. *)
Theorem nodes_are_visited_in_document_order
    (host : Host) (fuel d : nat) (node : NodeId) (opts : Options)
    (isRoot : option bool) (w : World) (out : Outcome (option NodeId)) (w' : World) :
  pseudo_contract (clonePseudoElements host) ->
  within_depth w (next w) d node = true ->
  cloneNode host fuel node opts isRoot w = (out, w') ->
  exists evs, trace w' = (trace w ++ evs)%list /\
    visits evs `sublist_of` preorder w d node /\
    (filter opts = None -> (exists r, out = Resolved r) ->
     visits evs = preorder w d node).
Proof.
  intros Hp Hdepth Hrun.
  exact (cloneNode_walk host fuel Hp d node opts isRoot (next w) w out w'
           (le_n _) Hdepth Hrun).
Qed.

Lemma nodes_are_visited_in_document_order_witness :
  (let run := cloneNode Sample.host 3 0 Sample.keep_all None Sample.page in
   exists evs, trace run.2 = (trace Sample.page ++ evs)%list /\
     visits evs `sublist_of` [0; 1; 2; 3; 4; 5; 6; 7; 8] /\
     (filter Sample.keep_all = None -> (exists r, run.1 = Resolved r) ->
      visits evs = [0; 1; 2; 3; 4; 5; 6; 7; 8])) /\
  (let run := cloneNode Sample.host 3 0 Sample.keep_all None Sample.late_failure in
   exists evs, trace run.2 = (trace Sample.late_failure ++ evs)%list /\
     visits evs `sublist_of` [0; 1; 2; 3] /\
     (filter Sample.keep_all = None -> (exists r, run.1 = Resolved r) ->
      visits evs = [0; 1; 2; 3])).
Proof.
  split.
  - apply (nodes_are_visited_in_document_order
             Sample.host 3 2 0 Sample.keep_all None Sample.page).
    + exact sample_pseudo_ok.
    + vm_compute. reflexivity.
    + apply surjective_pairing.
  - apply (nodes_are_visited_in_document_order
             Sample.host 3 2 0 Sample.keep_all None Sample.late_failure).
    + exact sample_pseudo_ok.
    + vm_compute. reflexivity.
    + apply surjective_pairing.
Defined.

(** ** A video is a leaf of the walk *)

(** X12.  The call of [cloneNode] on a video enters no other node: whatever
    the video holds, and whether the call resolves, prunes the video or
    rejects for its poster, the one visit it logs is that of the
    video itself. *)
Theorem a_video_is_a_leaf_of_the_walk
    (host : Host) (fuel : nat) (node : NodeId) (opts : Options)
    (isRoot : option bool) (w : World) (out : Outcome (option NodeId)) (w' : World) :
  pseudo_contract (clonePseudoElements host) ->
  node < next w ->
  instanceof (interface (getNode w node)) HTMLVideoElement = true ->
  cloneNode host (S fuel) node opts isRoot w = (out, w') ->
  exists evs, trace w' = (trace w ++ evs)%list /\ visits evs = [node].
Proof.
  intros Hp Hnode Hvideo. cbn [cloneNode]. step. step.
  set (wl := logged (Visit node) w).
  assert (Hdone : forall evs w1, trace w1 = (trace wl ++ evs)%list -> visits evs = [] ->
    exists evs', trace w1 = (trace w ++ evs')%list /\ visits evs' = [node]).
  { intros evs w1 Ht Hv. exists (Visit node :: evs). split.
    - rewrite Ht. cbn [trace logged wl]. rewrite <- app_assoc. reflexivity.
    - rewrite visits_visit, Hv. reflexivity. }
  destruct (_ && _).
  { intros [= <- <-]. apply (Hdone []); [|reflexivity]. rewrite app_nil_r. reflexivity. }
  rewrite bind_run.
  destruct (cloneSingleNode host node opts wl) as [o1 w1] eqn:Hsingle.
  destruct (cloneSingleNode_visits _ _ _ _ _ _ Hsingle) as (evs1 & Ht1 & Hv1).
  destruct (cloneSingleNode_post _ _ _ _ _ _ Hsingle) as (Hn1 & Hf1 & Hc1).
  destruct o1 as [c1|e|].
  2,3: intros [= <- <-]; apply (Hdone evs1); assumption.
  destruct (Hc1 c1 eq_refl) as (-> & Hnext1 & Hpar1 & Hch1).
  change (next wl) with (next w) in *.
  assert (Hready1 : ready (next w) (next w) w1).
  { unfold ready. rewrite Hpar1, Hch1. repeat split; auto. lia. }
  assert (Hskip : skipsChildren w1 node = true).
  { unfold skipsChildren. rewrite (getNode_agree wl w1 node) by (apply Hf1, Hnode).
    change (getNode wl node) with (getNode w node). rewrite Hvideo. apply orb_true_r. }
  rewrite bind_run, cloneChildren_run, Hskip. rewrite bind_run.
  destruct (decorate host node (next w) w1) as [o3 w3] eqn:Hdec.
  destruct (decorate_post host Hp _ _ _ _ _ _ Hready1 Hdec) as (-> & _ & Ht3 & _).
  unfold ret. intros [= <- <-]. apply (Hdone evs1); [|exact Hv1].
  rewrite Ht3. exact Ht1.
Qed.

Lemma a_video_is_a_leaf_of_the_walk_witness :
  (let run := cloneNode Sample.host 3 6 Sample.keep_all None Sample.page in
   exists evs, trace run.2 = (trace Sample.page ++ evs)%list /\ visits evs = [6]) /\
  (let run := cloneNode Sample.host 3 2 Sample.keep_all None Sample.late_failure in
   run.1 = Rejected "fetch failed" /\
   exists evs, trace run.2 = (trace Sample.late_failure ++ evs)%list /\ visits evs = [2]).
Proof.
  split; [|split; [vm_compute; reflexivity|]].
  - apply (a_video_is_a_leaf_of_the_walk
             Sample.host 2 6 Sample.keep_all None Sample.page
             (cloneNode Sample.host 3 6 Sample.keep_all None Sample.page).1).
    + exact sample_pseudo_ok.
    + vm_compute. lia.
    + reflexivity.
    + apply surjective_pairing.
  - apply (a_video_is_a_leaf_of_the_walk
             Sample.host 2 2 Sample.keep_all None Sample.late_failure
             (cloneNode Sample.host 3 2 Sample.keep_all None Sample.late_failure).1).
    + exact sample_pseudo_ok.
    + vm_compute. lia.
    + reflexivity.
    + apply surjective_pairing.
Defined.

(** ** Documents that need no collaborator *)










